(** * dbpool: an expiring cache of database handles

    A shallow embedding of [src/dbpool.go] (package [dbpool]): the
    [SafeDbMapCache] type, its operations [New], [Set], [Get], [Delete],
    [GetItems], [ExpiredKeys], [clearItems], [ClearAll] and the sweeper
    loop [GC], followed by the properties of the cache that the
    specification states.

    Conventions of the embedding.
    - A [*sqlx.DB] is a [Handle]: the identity of a connection object
      (the nil pointer is not a handle).  The cache only ever calls
      [Close] on it.
    - [time.Time] is the instant in nanoseconds since the Unix epoch, an
      unbounded integer; [UnixNano] converts it to Go's [int64] and wraps
      around as Go's arithmetic does.  [time.Duration] is an [int64].
    - [time.Now()] and the handle's [Close()] are the two effects of the
      package.  They are threaded through a state monad over [World]: the
      [n]-th call of [time.Now()] returns [clock n], and the [n]-th call
      of [Close] returns [close_result n h].  Both oracles are arbitrary.
    - [for k, v := range m] visits the entries of a Go map in an
      unspecified order: [range m] is an arbitrary permutation of the
      entries of [m].
    - The [pool] of a cache built by [New] is a non-nil map, and no
      operation assigns the field; the embedding covers such caches. *)

From Stdlib Require Import ZArith Lia.
From stdpp Require Import gmap strings list fin_maps.

Local Open Scope Z_scope.

(** ** Time and integers *)

(** Go's [int64] wrap-around. *)
Definition wrap64 (z : Z) : Z := (z + 2 ^ 63) mod 2 ^ 64 - 2 ^ 63.

Definition int64_range (z : Z) : Prop := - 2 ^ 63 <= z < 2 ^ 63.

Definition time_Time := Z.
Definition time_Duration := Z.

(** [t.Add(d)] *)
Definition Add (t : time_Time) (d : time_Duration) : time_Time := t + d.

(** [t.UnixNano()] *)
Definition UnixNano (t : time_Time) : Z := wrap64 t.

(** ** Data model *)

Definition Handle := nat.

Record PoolItem := mkPoolItem {
  Expiration : Z;
  Duration : time_Duration;
  Created : time_Time;
  Db : Handle
}.

Record SafeDbMapCache := mkCache {
  pool : gmap string PoolItem;
  defaultExpiration : time_Duration;
  cleanupInterval : time_Duration
}.

(** The cache together with the trace of its effects: how many times
    [time.Now()] was read, which handles were closed (oldest first), and
    the warnings written to the logger. *)
Record World := mkWorld {
  cache : SafeDbMapCache;
  nowCalls : nat;
  closeCalls : list Handle;
  warnings : list string
}.

Definition set_pool (p : gmap string PoolItem) (w : World) : World :=
  mkWorld (mkCache p (defaultExpiration (cache w)) (cleanupInterval (cache w)))
          (nowCalls w) (closeCalls w) (warnings w).

(** ** The state monad *)

Definition M (A : Type) : Type := World -> A * World.

Definition ret {A} (a : A) : M A := fun w => (a, w).

Definition bind {A B} (m : M A) (k : A -> M B) : M B :=
  fun w => let (a, w') := m w in k a w'.

Notation "'let*' x ':=' m 'in' k" := (bind m (fun x => k))
  (at level 10, x name, m at level 100, k at level 200).
Notation "m ';;' k" := (bind m (fun _ => k))
  (at level 100, k at level 200, right associativity).

Definition get_cache : M SafeDbMapCache := fun w => (cache w, w).

(** [c.pool[key] = item] *)
Definition store (key : string) (item : PoolItem) : M unit :=
  fun w => (tt, set_pool (<[key := item]> (pool (cache w))) w).

(** [delete(c.pool, key)] *)
Definition remove (key : string) : M unit :=
  fun w => (tt, set_pool (delete key (pool (cache w))) w).

(** [Logger.Warningf(...)] *)
Definition Warningf (msg : string) : M unit :=
  fun w => (tt, mkWorld (cache w) (nowCalls w) (closeCalls w) (warnings w ++ [msg])).

(** [for _, x := range l { body }] *)
Fixpoint for_each {A} (l : list A) (body : A -> M unit) : M unit :=
  match l with
  | [] => ret tt
  | x :: rest => body x ;; for_each rest body
  end.

(** The same loop with an accumulator, for loops that build a slice. *)
Fixpoint for_each_acc {A B} (l : list A) (acc : B) (body : B -> A -> M B) : M B :=
  match l with
  | [] => ret acc
  | x :: rest => let* acc' := body acc x in for_each_acc rest acc' body
  end.

Section Cache.

(** The wall clock: the reading returned by the [n]-th [time.Now()]. *)
Variable clock : nat -> time_Time.

(** The outcome of the [n]-th [Close] when it is applied to handle [h]:
    [None] is Go's nil error. *)
Variable close_result : nat -> Handle -> option string.

(** The order in which a [range] loop visits a map. *)
Variable range : gmap string PoolItem -> list (string * PoolItem).
Hypothesis range_perm : forall m, range m ≡ₚ map_to_list m.

(** [time.Now()] *)
Definition time_Now : M time_Time :=
  fun w => (clock (nowCalls w),
            mkWorld (cache w) (S (nowCalls w)) (closeCalls w) (warnings w)).

(** [h.Close()] *)
Definition Close (h : Handle) : M (option string) :=
  fun w => (close_result (length (closeCalls w)) h,
            mkWorld (cache w) (nowCalls w) (closeCalls w ++ [h]) (warnings w)).

(** [New]: the cache it returns; the sweeper is started when
    [cleanupInterval > 0] (see [sweeper_started]). *)
Definition New (defaultExpiration cleanupInterval : time_Duration) : SafeDbMapCache :=
  mkCache ∅ defaultExpiration cleanupInterval.

Definition sweeper_started (c : SafeDbMapCache) : bool := 0 <? cleanupInterval c.

(** [Set] ([Set] is a reserved word of Rocq). *)
Definition Set_ (key : string) (value : Handle) (duration : time_Duration) : M unit :=
  let* c := get_cache in
  let duration := if duration =? 0 then defaultExpiration c else duration in
  let* expiration :=
    (if 0 <? duration
     then let* now := time_Now in ret (UnixNano (Add now duration))
     else ret 0) in
  let* created := time_Now in
  store key (mkPoolItem expiration duration created value).

(** [Get]: Go's [(nil, false)] is [(None, false)]. *)
Definition Get (key : string) : M (option Handle * bool) :=
  let* c := get_cache in
  match pool c !! key with
  | None => ret (None, false)
  | Some item =>
      let* expired :=
        (if 0 <? Expiration item
         then let* now := time_Now in ret (Expiration item <? UnixNano now)
         else ret false) in
      if expired then ret (None, false)
      else
        let* newExpiration :=
          (if 0 <? Duration item
           then let* now := time_Now in ret (UnixNano (Add now (Duration item)))
           else ret 0) in
        let* created := time_Now in
        store key (mkPoolItem newExpiration (Duration item) created (Db item)) ;;
        ret (Some (Db item), true)
  end.

(** [Delete]: the result is Go's [error], [None] for nil. *)
Definition Delete (key : string) : M (option string) :=
  let* c := get_cache in
  match pool c !! key with
  | None => ret (Some "key not found"%string)
  | Some connector =>
      let* err := Close (Db connector) in
      match err with
      | Some e => Warningf ("db connection close error: " +:+ e)
      | None => ret tt
      end ;;
      remove key ;;
      ret None
  end.

(** [GetItems] *)
Definition GetItems : M (list string) :=
  let* c := get_cache in
  for_each_acc (range (pool c)) [] (fun items kv => ret (items ++ [kv.1])).

(** [ExpiredKeys]: [time.Now()] is read once per visited entry, before
    the test [i.Expiration > 0]. *)
Definition ExpiredKeys : M (list string) :=
  let* c := get_cache in
  for_each_acc (range (pool c)) [] (fun keys kv =>
    let* now := time_Now in
    if (Expiration kv.2 <? UnixNano now) && (0 <? Expiration kv.2)
    then ret (keys ++ [kv.1])
    else ret keys).

(** [clearItems] *)
Definition clearItems (keys : list string) : M unit :=
  for_each keys (fun k =>
    let* c := get_cache in
    match pool c !! k with
    | Some connector =>
        let* err := Close (Db connector) in
        match err with
        | Some e => Warningf ("db connection close error: " +:+ e)
        | None => ret tt
        end
    | None => ret tt
    end ;;
    remove k).

(** [ClearAll].  The loop ranges over the map it deletes from; each
    iteration deletes only the key it is visiting, so the loop visits
    every key of the map as it was on entry, once. *)
Definition ClearAll : M unit :=
  let* c := get_cache in
  for_each (range (pool c)).*1 (fun k =>
    let* c := get_cache in
    match pool c !! k with
    | Some connector =>
        let* err := Close (Db connector) in
        match err with
        | Some e => Warningf ("db connection close error: " +:+ e)
        | None => ret tt
        end
    | None => ret tt
    end ;;
    remove k).

(** One iteration of the loop of [GC], after the timer fired (the pool
    is not nil). *)
Definition GC_tick : M unit :=
  let* keys := ExpiredKeys in
  if (length keys =? 0)%nat then ret tt else clearItems keys.

(** The first [ticks] iterations of [GC]. *)
Fixpoint GC (ticks : nat) : M unit :=
  match ticks with
  | O => ret tt
  | S n => GC_tick ;; GC n
  end.

(** The test both [Get] and [ExpiredKeys] make on an entry at the clock
    reading [now]: its expiration is set and has passed. *)
Definition expired_at (now : time_Time) (item : PoolItem) : bool :=
  (0 <? Expiration item) && (Expiration item <? UnixNano now).

(** How many times [Get] reads the clock before it refreshes [item]. *)
Definition check_reads (item : PoolItem) : nat :=
  if 0 <? Expiration item then 1 else 0.
Definition refresh_reads (item : PoolItem) : nat :=
  if 0 <? Duration item then 1 else 0.

(** The world after [n] more readings of the clock. *)
Definition after_reads (n : nat) (w : World) : World :=
  mkWorld (cache w) (n + nowCalls w) (closeCalls w) (warnings w).

(** The entry [Get] writes back on a hit on [item] when [n] readings of
    the clock were made before the call. *)
Definition refreshed (item : PoolItem) (n : nat) : PoolItem :=
  mkPoolItem
    (if 0 <? Duration item
     then UnixNano (Add (clock (check_reads item + n)) (Duration item))
     else 0)
    (Duration item)
    (clock (refresh_reads item + check_reads item + n))
    (Db item).

(** ** Auxiliary functions of the proofs *)

(** The keys a scan starting at clock reading [n] collects from the
    entries [l], in visiting order. *)
Fixpoint expired_scan (n : nat) (l : list (string * PoolItem)) : list string :=
  match l with
  | [] => []
  | kv :: rest =>
      (if (Expiration kv.2 <? UnixNano (clock n)) && (0 <? Expiration kv.2)
       then [kv.1] else [])
      ++ expired_scan (S n) rest
  end.

(** The handles [clearItems keys] closes on the map [m], in order. *)
Fixpoint closed_by (keys : list string) (m : gmap string PoolItem) : list Handle :=
  match keys with
  | [] => []
  | k :: rest =>
      match m !! k with Some it => [Db it] | None => [] end
      ++ closed_by rest (delete k m)
  end.

(** The warnings logged while the handles [hs] are closed, the first
    of them by the [n]-th call of [Close]. *)
Fixpoint close_warnings (n : nat) (hs : list Handle) : list string :=
  match hs with
  | [] => []
  | h :: rest =>
      match close_result n h with
      | Some e => ["db connection close error: " +:+ e]
      | None => []
      end ++ close_warnings (S n) rest
  end.

(** The pool after the keys [keys] were deleted from [m]. *)
Definition delete_all (keys : list string) (m : gmap string PoolItem) :
  gmap string PoolItem := foldl (fun m k => delete k m) m keys.

(** A caller that calls [Get] on one key [n] times in a row, and the
    results it gets. *)
Fixpoint Get_times (n : nat) (key : string) : M (list (option Handle * bool)) :=
  match n with
  | O => ret []
  | S n' =>
      let* r := Get key in
      let* rs := Get_times n' key in
      ret (r :: rs)
  end.

(** ** Callers and the sweeper

    Every operation runs under the lock of the cache, so a run of the
    system is a sequence of operations.  The sweeper takes part in it
    with two steps per tick, as [GC] does: the scan [ExpiredKeys], and
    then, under a lock acquired anew, [clearItems] on the keys the scan
    returned.  Calls of other goroutines may come in between. *)
Inductive Event :=
| CallSet (key : string) (value : Handle) (duration : time_Duration)
| CallGet (key : string)
| CallDelete (key : string)
| CallGetItems
| CallExpiredKeys
| CallClearAll
| SweepScan
| SweepEvict.

(** The world, and the keys the sweeper scanned and has yet to evict. *)
Record System := mkSystem {
  world : World;
  snapshot : option (list string)
}.

Definition step (e : Event) (s : System) : System :=
  match e with
  | CallSet key value duration =>
      mkSystem (Set_ key value duration (world s)).2 (snapshot s)
  | CallGet key => mkSystem (Get key (world s)).2 (snapshot s)
  | CallDelete key => mkSystem (Delete key (world s)).2 (snapshot s)
  | CallGetItems => mkSystem (GetItems (world s)).2 (snapshot s)
  | CallExpiredKeys => mkSystem (ExpiredKeys (world s)).2 (snapshot s)
  | CallClearAll => mkSystem (ClearAll (world s)).2 (snapshot s)
  | SweepScan =>
      match snapshot s with
      | Some _ => s
      | None =>
          let r := ExpiredKeys (world s) in
          mkSystem r.2 (if (length r.1 =? 0)%nat then None else Some r.1)
      end
  | SweepEvict =>
      match snapshot s with
      | Some keys => mkSystem (clearItems keys (world s)).2 None
      | None => s
      end
  end.

Definition run (tr : list Event) (s : System) : System :=
  foldl (fun s e => step e s) s tr.

(** The calls that replace or remove the entry of [key]. *)
Definition touches (key : string) (e : Event) : bool :=
  match e with
  | CallSet k _ _ | CallDelete k => bool_decide (k = key)
  | CallClearAll => true
  | _ => false
  end.

(** The entry of [key] holds the handle [h] and never expires, and the
    sweeper holds no snapshot that names [key]. *)
Definition never_expires (key : string) (h : Handle) (s : System) : Prop :=
  (exists item, pool (cache (world s)) !! key = Some item
                /\ Db item = h /\ Expiration item = 0 /\ Duration item <= 0)
  /\ (forall keys, snapshot s = Some keys -> key ∉ keys).

(** ** The lock of the cache

    [SafeDbMapCache] embeds a [sync.RWMutex]: any number of goroutines
    may hold it in read mode ([RLock]) at once, and one goroutine holds
    it alone in write mode ([Lock]). *)
Inductive LockMode := RLock | Lock.

(** The mode in which each operation takes the lock. *)
Definition lock_mode (e : Event) : LockMode :=
  match e with
  | CallGet _ | CallGetItems | CallExpiredKeys | SweepScan => RLock
  | CallSet _ _ _ | CallDelete _ | CallClearAll | SweepEvict => Lock
  end.

(** Whether the body of the operation has a statement that writes the
    map: an assignment [c.pool[key] = ...] or a [delete(c.pool, key)]. *)
Definition writes_pool (e : Event) : bool :=
  match e with
  | CallGetItems | CallExpiredKeys | SweepScan => false
  | CallSet _ _ _ | CallGet _ | CallDelete _ | CallClearAll | SweepEvict => true
  end.

Record RWMutex := mkRWMutex {
  readers : nat;
  writer : bool
}.

Definition can_acquire (m : LockMode) (l : RWMutex) : bool :=
  match m with
  | RLock => negb (writer l)
  | Lock => negb (writer l) && (readers l =? 0)%nat
  end.

Definition acquire (m : LockMode) (l : RWMutex) : RWMutex :=
  match m with
  | RLock => mkRWMutex (S (readers l)) (writer l)
  | Lock => mkRWMutex (readers l) true
  end.

Definition release (m : LockMode) (l : RWMutex) : RWMutex :=
  match m with
  | RLock => mkRWMutex (pred (readers l)) (writer l)
  | Lock => mkRWMutex (readers l) false
  end.

(** A goroutine that makes one call: it waits for the lock, is inside
    the body of the operation with the lock held, or has returned. *)
Inductive Thread :=
| Waiting (e : Event)
| Inside (e : Event)
| Finished.

Inductive sched_step : RWMutex * list Thread -> RWMutex * list Thread -> Prop :=
| sched_acquire l ts i e :
    ts !! i = Some (Waiting e) ->
    can_acquire (lock_mode e) l = true ->
    sched_step (l, ts) (acquire (lock_mode e) l, <[i := Inside e]> ts)
| sched_release l ts i e :
    ts !! i = Some (Inside e) ->
    sched_step (l, ts) (release (lock_mode e) l, <[i := Finished]> ts).

(** Two goroutines are inside operations on the map at once, and one
    of the operations writes the map. *)
Definition data_race (ts : list Thread) : Prop :=
  exists i j e1 e2,
    i <> j /\ ts !! i = Some (Inside e1) /\ ts !! j = Some (Inside e2)
    /\ writes_pool e1 = true.

Definition weight (m : LockMode) (t : Thread) : nat :=
  match t with
  | Inside e =>
      match m, lock_mode e with
      | RLock, RLock | Lock, Lock => 1
      | _, _ => 0
      end
  | _ => 0
  end.

(** How many goroutines hold the lock in mode [m]. *)
Fixpoint holders (m : LockMode) (ts : list Thread) : nat :=
  match ts with
  | [] => 0
  | t :: rest => weight m t + holders m rest
  end.

Definition lock_consistent (st : RWMutex * list Thread) : Prop :=
  readers st.1 = holders RLock st.2
  /\ (writer st.1 = false -> holders Lock st.2 = 0%nat)
  /\ (writer st.1 = true -> holders Lock st.2 = 1%nat /\ holders RLock st.2 = 0%nat).

(** ** Measures and invariants *)

(** The handles the cache is responsible for: those the map holds (one
    per entry) and those it has closed. *)
Definition stored_handles (m : gmap string PoolItem) : list Handle :=
  (fun kv => Db kv.2) <$> map_to_list m.

Definition handles (w : World) : list Handle :=
  stored_handles (pool (cache w)) ++ closeCalls w.

Definition is_Set (e : Event) : bool :=
  match e with
  | CallSet _ _ _ => true
  | _ => false
  end.

(** What [Set] and [Get] make true of the entries they write on a cache
    whose [defaultExpiration] is [dflt]: the expiration is an [int64], an
    entry whose ttl is not positive carries the sentinel, and the ttl is
    [0] only when [dflt] is. *)
Definition entry_ok (dflt : time_Duration) (item : PoolItem) : Prop :=
  int64_range (Expiration item)
  /\ (Duration item <= 0 -> Expiration item = 0)
  /\ (Duration item = 0 -> dflt = 0).

(** The steps a goroutine has yet to take: acquire and release. *)
Definition steps_left (t : Thread) : nat :=
  match t with
  | Waiting _ => 2
  | Inside _ => 1
  | Finished => 0
  end.

Fixpoint work_left (ts : list Thread) : nat :=
  match ts with
  | [] => 0
  | t :: rest => steps_left t + work_left rest
  end.

(** Every entry of the cache is as [Set] and [Get] write them. *)
Definition cache_ok (w : World) : Prop :=
  map_Forall (fun _ item => entry_ok (defaultExpiration (cache w)) item)
             (pool (cache w)).

(** * Properties *)

(** ** Auxiliary facts about the loops *)

Lemma elem_of_range (m : gmap string PoolItem) k item :
  (k, item) ∈ range m <-> m !! k = Some item.
Proof. rewrite range_perm. apply elem_of_map_to_list. Qed.

Lemma elem_of_range_keys (m : gmap string PoolItem) k :
  k ∈ (range m).*1 <-> is_Some (m !! k).
Proof.
  rewrite list_elem_of_fmap. split.
  - intros [[k' it] [-> Hin]]. apply elem_of_range in Hin. by exists it.
  - intros [it Hit]. exists (k, it). split; [done|]. by apply elem_of_range.
Qed.

Lemma NoDup_range_keys (m : gmap string PoolItem) : NoDup (range m).*1.
Proof. rewrite range_perm. apply NoDup_fst_map_to_list. Qed.

Lemma range_empty : range ∅ = [].
Proof.
  apply Permutation_nil_r. rewrite range_perm. by rewrite map_to_list_empty.
Qed.

Lemma GetItems_loop (l : list (string * PoolItem)) (acc : list string) (w : World) :
  for_each_acc l acc (fun items kv => ret (items ++ [kv.1])) w = (acc ++ l.*1, w).
Proof.
  revert acc. induction l as [|kv l IH]; intros acc; cbn.
  - by rewrite app_nil_r.
  - unfold bind, ret in *. cbn. rewrite IH. by rewrite <- app_assoc.
Qed.

Lemma GetItems_run w : GetItems w = ((range (pool (cache w))).*1, w).
Proof. unfold GetItems, bind, get_cache. cbn. apply GetItems_loop. Qed.

Lemma elem_of_GetItems w k :
  k ∈ (GetItems w).1 <-> is_Some (pool (cache w) !! k).
Proof. rewrite GetItems_run. cbn. apply elem_of_range_keys. Qed.

Lemma ExpiredKeys_loop (l : list (string * PoolItem)) (acc : list string) (w : World) :
  for_each_acc l acc (fun keys kv =>
    let* now := time_Now in
    if (Expiration kv.2 <? UnixNano now) && (0 <? Expiration kv.2)
    then ret (keys ++ [kv.1])
    else ret keys) w
  = (acc ++ expired_scan (nowCalls w) l, after_reads (length l) w).
Proof.
  revert acc w. induction l as [|kv l IH]; intros acc w; cbn.
  - rewrite app_nil_r. by destruct w.
  - unfold bind, time_Now, ret in *. cbn.
    destruct ((Expiration kv.2 <? UnixNano (clock (nowCalls w))) && (0 <? Expiration kv.2));
      rewrite IH; cbn; unfold after_reads; cbn;
      rewrite <- ?app_assoc, ?Nat.add_succ_r; done.
Qed.

Lemma ExpiredKeys_run w :
  ExpiredKeys w = (expired_scan (nowCalls w) (range (pool (cache w))),
                   after_reads (length (range (pool (cache w)))) w).
Proof. unfold ExpiredKeys, bind, get_cache. cbn. apply ExpiredKeys_loop. Qed.

Lemma expired_scan_elem n l k :
  k ∈ expired_scan n l ->
  exists item i, (k, item) ∈ l /\ (n <= i)%nat /\
                 0 < Expiration item /\ Expiration item < UnixNano (clock i).
Proof.
  revert n. induction l as [|[k' it] l IH]; intros n; cbn.
  - by intros ?%elem_of_nil.
  - intros [Hin|Hin]%elem_of_app.
    + destruct (Expiration it <? UnixNano (clock n)) eqn:E1;
        destruct (0 <? Expiration it) eqn:E2; cbn in Hin;
        try by apply elem_of_nil in Hin.
      apply list_elem_of_singleton in Hin as ->.
      exists it, n. repeat split; [left | lia | lia | lia].
    + destruct (IH _ Hin) as (item & i & ? & ? & ? & ?).
      exists item, i. repeat split; [by right | lia | done | done].
Qed.

Lemma expired_scan_sublist n l : sublist (expired_scan n l) l.*1.
Proof.
  revert n. induction l as [|[k it] l IH]; intros n; cbn; [constructor|].
  destruct ((Expiration it <? UnixNano (clock n)) && (0 <? Expiration it)); cbn.
  - by apply sublist_skip.
  - by apply sublist_cons.
Qed.

Lemma expired_scan_always n l k item :
  (k, item) ∈ l -> 0 < Expiration item ->
  (forall i, (n <= i)%nat -> Expiration item < UnixNano (clock i)) ->
  k ∈ expired_scan n l.
Proof.
  revert n. induction l as [|[k' it] l IH]; intros n Hin Hpos Hexp; cbn.
  - by apply elem_of_nil in Hin.
  - assert ((Expiration item <? UnixNano (clock n)) = true) as E1
      by (apply Z.ltb_lt, Hexp; lia).
    assert ((0 <? Expiration item) = true) as E2 by (by apply Z.ltb_lt).
    apply elem_of_app. apply elem_of_cons in Hin as [Heq|Hin].
    + simplify_eq. left. rewrite E1, E2. cbn. by left.
    + right. apply (IH (S n)); [done|done|]. intros i Hi. apply Hexp. lia.
Qed.

Lemma NoDup_ExpiredKeys w : NoDup (ExpiredKeys w).1.
Proof.
  rewrite ExpiredKeys_run. cbn.
  eapply sublist_NoDup; [apply NoDup_range_keys | apply expired_scan_sublist].
Qed.

Lemma elem_of_ExpiredKeys w k :
  k ∈ (ExpiredKeys w).1 ->
  exists item, pool (cache w) !! k = Some item /\ 0 < Expiration item.
Proof.
  rewrite ExpiredKeys_run. cbn. intros Hin.
  destruct (expired_scan_elem _ _ _ Hin) as (item & i & Hl & _ & Hpos & _).
  exists item. split; [by apply elem_of_range | done].
Qed.

Lemma lookup_delete_all keys (m : gmap string PoolItem) k :
  delete_all keys m !! k = if decide (k ∈ keys) then None else m !! k.
Proof.
  unfold delete_all. revert m. induction keys as [|k' keys IH]; intros m; cbn.
  - destruct (decide (k ∈ [])) as [H|_]; [by apply elem_of_nil in H | done].
  - rewrite IH. clear IH. destruct (decide (k ∈ keys)) as [Hin|Hnin].
    + rewrite decide_True; [done | by right].
    + destruct (decide (k = k')) as [->|Hne].
      * rewrite lookup_delete_eq. rewrite decide_True; [done | left].
      * rewrite lookup_delete_ne by done. rewrite decide_False; [done|].
        by intros [?|?]%elem_of_cons.
Qed.

Lemma closed_by_NoDup keys (m : gmap string PoolItem) :
  NoDup keys -> closed_by keys m = omap (fun k => Db <$> m !! k) keys.
Proof.
  revert m. induction keys as [|k keys IH]; intros m Hnd; cbn; [done|].
  apply NoDup_cons in Hnd as [Hk Hnd].
  rewrite IH by done.
  assert (omap (fun k0 => Db <$> delete k m !! k0) keys
          = omap (fun k0 => Db <$> m !! k0) keys) as ->.
  { clear IH Hnd. induction keys as [|k1 keys IH]; cbn; [done|].
    apply not_elem_of_cons in Hk as [Hne Hk].
    rewrite lookup_delete_ne by done. by rewrite IH. }
  by destruct (m !! k).
Qed.

Lemma close_warnings_app n hs1 hs2 :
  close_warnings n (hs1 ++ hs2)
  = close_warnings n hs1 ++ close_warnings (length hs1 + n) hs2.
Proof.
  revert n. induction hs1 as [|h hs1 IH]; intros n; cbn; [done|].
  rewrite IH, <- app_assoc. by rewrite Nat.add_succ_r.
Qed.

(** [clearItems] on a world: what becomes of each component. *)
Lemma clearItems_run keys w :
  clearItems keys w =
  (tt, mkWorld
         (mkCache (delete_all keys (pool (cache w)))
                  (defaultExpiration (cache w)) (cleanupInterval (cache w)))
         (nowCalls w)
         (closeCalls w ++ closed_by keys (pool (cache w)))
         (warnings w ++ close_warnings (length (closeCalls w))
                                       (closed_by keys (pool (cache w))))).
Proof.
  unfold clearItems. revert w.
  induction keys as [|k keys IH]; intros w; cbn.
  - unfold ret, delete_all. cbn. rewrite !app_nil_r. by destruct w as [[]].
  - unfold bind at 1. unfold bind at 1. unfold get_cache. cbn.
    destruct (pool (cache w) !! k) as [it|] eqn:Hk.
    + unfold bind at 1. unfold Close at 1. cbn.
      destruct (close_result (length (closeCalls w)) (Db it)) as [e|] eqn:He;
        cbn; unfold remove, set_pool; cbn; rewrite IH; cbn;
        rewrite <- !app_assoc; cbn; rewrite ?length_app; cbn;
        rewrite ?Nat.add_1_r; done.
    + unfold ret, remove, set_pool. cbn. rewrite IH. cbn. done.
Qed.

Lemma ClearAll_clearItems w :
  ClearAll w = clearItems (range (pool (cache w))).*1 w.
Proof. reflexivity. Qed.

Lemma delete_all_range (m : gmap string PoolItem) :
  delete_all (range m).*1 m = ∅.
Proof.
  apply map_eq. intros k. rewrite lookup_delete_all, lookup_empty.
  case_decide as H; [done|].
  destruct (m !! k) eqn:E; [|done].
  exfalso. apply H, elem_of_range_keys. by exists p.
Qed.

Lemma closed_by_range (m : gmap string PoolItem) :
  closed_by (range m).*1 m = (fun kv => Db kv.2) <$> range m.
Proof.
  rewrite closed_by_NoDup by apply NoDup_range_keys.
  assert (forall kv, kv ∈ range m -> m !! kv.1 = Some kv.2) as H.
  { intros [k it] Hin. by apply elem_of_range. }
  induction (range m) as [|kv l IH]; cbn; [done|].
  rewrite (H kv) by left. cbn. f_equal. apply IH.
  intros kv' Hin. apply H. by right.
Qed.

Lemma closed_by_absent keys (m : gmap string PoolItem) :
  (forall k, k ∈ keys -> m !! k = None) -> closed_by keys m = [].
Proof.
  revert m. induction keys as [|k keys IH]; intros m Habs; cbn; [done|].
  rewrite (Habs k) by left. cbn. apply IH. intros k' Hk'.
  rewrite lookup_delete_None. right. apply Habs. by right.
Qed.

Lemma delete_all_absent keys (m : gmap string PoolItem) :
  (forall k, k ∈ keys -> m !! k = None) -> delete_all keys m = m.
Proof.
  intros Habs. apply map_eq. intros k. rewrite lookup_delete_all.
  destruct (decide (k ∈ keys)) as [Hin|Hnin]; [by rewrite Habs | done].
Qed.

(** ** The single operations on a world *)

Lemma Set_run w key value ttl :
  Set_ key value ttl w =
  let d := if ttl =? 0 then defaultExpiration (cache w) else ttl in
  (tt, set_pool
         (<[key := mkPoolItem
                     (if 0 <? d then UnixNano (Add (clock (nowCalls w)) d) else 0)
                     d
                     (clock ((if 0 <? d then 1 else 0) + nowCalls w))
                     value]> (pool (cache w)))
         (after_reads (S (if 0 <? d then 1 else 0)) w)).
Proof.
  unfold Set_, bind, get_cache, store, time_Now, ret, after_reads. cbn.
  destruct (ttl =? 0); [destruct (0 <? defaultExpiration (cache w)) | destruct (0 <? ttl)]; done.
Qed.

Lemma Get_absent w key :
  pool (cache w) !! key = None -> Get key w = ((None, false), w).
Proof. intros H. unfold Get, bind, get_cache, ret. cbn. by rewrite H. Qed.

Lemma Get_expired w key item :
  pool (cache w) !! key = Some item ->
  expired_at (clock (nowCalls w)) item = true ->
  Get key w = ((None, false), after_reads 1 w).
Proof.
  intros H He. unfold expired_at in He. apply andb_true_iff in He as [E1 E2].
  unfold Get, bind, get_cache, ret, time_Now. cbn. rewrite H, E1. cbn.
  by rewrite E2.
Qed.

Lemma Get_hit w key item :
  pool (cache w) !! key = Some item ->
  expired_at (clock (nowCalls w)) item = false ->
  Get key w =
  ((Some (Db item), true),
   set_pool (<[key := refreshed item (nowCalls w)]> (pool (cache w)))
            (after_reads (S (refresh_reads item + check_reads item)) w)).
Proof.
  intros H He. unfold expired_at in He.
  unfold Get, bind, get_cache, ret, time_Now, store, refreshed, after_reads,
    refresh_reads, check_reads. cbn. rewrite H.
  destruct (0 <? Expiration item); cbn in *; rewrite ?He;
    destruct (0 <? Duration item); cbn; done.
Qed.

Lemma Delete_absent w key :
  pool (cache w) !! key = None ->
  Delete key w = (Some "key not found"%string, w).
Proof. intros H. unfold Delete, bind, get_cache, ret. cbn. by rewrite H. Qed.

Lemma Delete_present w key item :
  pool (cache w) !! key = Some item ->
  Delete key w =
  (None, mkWorld
           (mkCache (delete key (pool (cache w)))
                    (defaultExpiration (cache w)) (cleanupInterval (cache w)))
           (nowCalls w)
           (closeCalls w ++ [Db item])
           (warnings w ++ close_warnings (length (closeCalls w)) [Db item])).
Proof.
  intros H. unfold Delete, bind, get_cache, ret, Close, Warningf, remove, set_pool.
  cbn. rewrite H.
  destruct (close_result (length (closeCalls w)) (Db item)); cbn;
    rewrite ?app_nil_r; done.
Qed.

Lemma wrap64_id z : int64_range z -> wrap64 z = z.
Proof.
  unfold int64_range, wrap64. intros H.
  rewrite Z.mod_small by lia. lia.
Qed.

Lemma wrap64_range z : int64_range (wrap64 z).
Proof.
  unfold int64_range, wrap64.
  pose proof (Z.mod_pos_bound (z + 2 ^ 63) (2 ^ 64) ltac:(lia)). lia.
Qed.

Lemma UnixNano_Add_exact t d :
  int64_range (t + d) -> UnixNano (Add t d) = t + d.
Proof. apply wrap64_id. Qed.

(** ** The operations of the cache *)

Lemma UnixNano_Add_wraps t d :
  2 ^ 63 <= t + d < 2 ^ 63 + 2 ^ 64 -> UnixNano (Add t d) = t + d - 2 ^ 64.
Proof.
  unfold UnixNano, Add, wrap64. intros H.
  replace (t + d + 2 ^ 63) with (t + d - 2 ^ 63 + 1 * 2 ^ 64) by lia.
  rewrite Z.mod_add by lia. rewrite Z.mod_small by lia. lia.
Qed.

(** C7, as the code has it.  [Set] has no failure: it is a total
    function that returns the unit value.  It stores under [key]
    (replacing what was there) the entry whose ttl is [defaultExpiration]
    when the argument is [0] and the argument otherwise, whose creation
    time is the clock reading taken for it, and whose expiration is the
    sentinel [0] when that ttl is not positive and otherwise the [int64]
    that [UnixNano] returns for the first clock reading plus the ttl:
    the sum itself when the sum is an [int64], and the sum minus [2^64],
    a negative number, when the sum lies in [[2^63, 2^63 + 2^64)].
    Nothing else changes. *)
Theorem Set_stores_entry (w : World) (key : string) (value : Handle)
    (ttl : time_Duration) :
  let eff := if ttl =? 0 then defaultExpiration (cache w) else ttl in
  let now := clock (nowCalls w) in
  let created := clock ((if 0 <? eff then 1 else 0) + nowCalls w) in
  let w' := (Set_ key value ttl w).2 in
  (Set_ key value ttl w).1 = tt
  /\ pool (cache w') =
       <[key := mkPoolItem (if 0 <? eff then UnixNano (Add now eff) else 0)
                           eff created value]> (pool (cache w))
  /\ (0 < eff -> int64_range (now + eff) ->
      Expiration <$> pool (cache w') !! key = Some (now + eff))
  /\ (0 < eff -> 2 ^ 63 <= now + eff < 2 ^ 63 + 2 ^ 64 ->
      Expiration <$> pool (cache w') !! key = Some (now + eff - 2 ^ 64))
  /\ (eff <= 0 -> Expiration <$> pool (cache w') !! key = Some 0)
  /\ defaultExpiration (cache w') = defaultExpiration (cache w)
  /\ cleanupInterval (cache w') = cleanupInterval (cache w)
  /\ closeCalls w' = closeCalls w
  /\ warnings w' = warnings w.
Proof.
  cbv zeta. rewrite Set_run. cbn.
  set (eff := if ttl =? 0 then defaultExpiration (cache w) else ttl).
  repeat split.
  - intros Hpos Hrange. rewrite lookup_insert_eq. cbn.
    assert ((0 <? eff) = true) as -> by (apply Z.ltb_lt; lia).
    by rewrite UnixNano_Add_exact.
  - intros Hpos Hrange. rewrite lookup_insert_eq. cbn.
    assert ((0 <? eff) = true) as -> by (apply Z.ltb_lt; lia).
    by rewrite UnixNano_Add_wraps.
  - intros Hle. rewrite lookup_insert_eq. cbn.
    by assert ((0 <? eff) = false) as -> by (apply Z.ltb_ge; lia).
Qed.

(** C2.  When the entry of [key] has a set expiration that has passed
    at the time of the call, [Get] reports not found and leaves the
    entry in the map, so [GetItems] still lists the key; the key stays
    listed until an eviction of the sweeper that names it. *)
Theorem Get_expired_is_lazy (w : World) (key : string) (item : PoolItem) :
  pool (cache w) !! key = Some item ->
  0 < Expiration item ->
  Expiration item < UnixNano (clock (nowCalls w)) ->
  (Get key w).1 = (None, false)
  /\ pool (cache (Get key w).2) !! key = Some item
  /\ key ∈ (GetItems (Get key w).2).1
  /\ (forall keys, key ∈ keys ->
        key ∉ (GetItems (clearItems keys (Get key w).2).2).1).
Proof.
  intros Hk Hpos Hpast.
  assert (expired_at (clock (nowCalls w)) item = true) as He.
  { unfold expired_at. apply andb_true_iff. split; by apply Z.ltb_lt. }
  rewrite (Get_expired _ _ _ Hk He). cbn [fst snd].
  split; [done|]. split; [done|]. split.
  - apply elem_of_GetItems. cbn. by exists item.
  - intros keys Hin. rewrite elem_of_GetItems, clearItems_run. cbn.
    rewrite lookup_delete_all, decide_True by done. by intros [? ?].
Qed.

(** C4.  [Delete] fails exactly when the key is absent, and then it
    changes nothing.  On a present key it calls [Close] on the handle
    of the entry once, deletes the key and returns no error, whatever
    [Close] returns; an error of [Close] only adds a warning. *)
Theorem Delete_closes_and_removes (w : World) (key : string) :
  ((Delete key w).1 <> None <-> pool (cache w) !! key = None)
  /\ (pool (cache w) !! key = None ->
      Delete key w = (Some "key not found"%string, w))
  /\ (forall item, pool (cache w) !! key = Some item ->
      (Delete key w).1 = None
      /\ closeCalls (Delete key w).2 = closeCalls w ++ [Db item]
      /\ pool (cache (Delete key w).2) = delete key (pool (cache w))
      /\ pool (cache (Delete key w).2) !! key = None
      /\ warnings (Delete key w).2 =
           warnings w ++
           match close_result (length (closeCalls w)) (Db item) with
           | Some e => ["db connection close error: " +:+ e]
           | None => []
           end).
Proof.
  split; [|split].
  - destruct (pool (cache w) !! key) as [item|] eqn:Hk.
    + rewrite (Delete_present _ _ _ Hk). cbn. split; [by intros ?|done].
    + rewrite (Delete_absent _ _ Hk). cbn. split; done.
  - apply Delete_absent.
  - intros item Hk. rewrite (Delete_present _ _ _ Hk). cbn.
    repeat split; [apply lookup_delete_eq|].
    by destruct (close_result (length (closeCalls w)) (Db item));
      rewrite ?app_nil_r.
Qed.

Lemma GC_tick_run w :
  GC_tick w = clearItems (ExpiredKeys w).1 (ExpiredKeys w).2.
Proof.
  unfold GC_tick, bind. destruct (ExpiredKeys w) as [keys w1]. cbn [fst snd].
  destruct keys as [|k keys]; [|done].
  done.
Qed.

(** C5.  The eviction of a sweep: [keys] is the snapshot a scan took
    in the world [w_scan], and [clearItems keys] runs in the world [w]
    the cache is in when the sweeper gets the lock again (a tick that
    nothing interrupts runs it in the world the scan left).  Every key of
    the snapshot is gone afterwards and [GetItems] does not list it;
    the handles closed are those of the keys of the snapshot that [w]
    still holds, each once, and a key of the snapshot that [w] no
    longer holds causes no call of [Close]; failures of [Close] only
    add warnings; the other keys keep their entries. *)
Theorem sweep_evicts_snapshot (w_scan w : World) :
  let keys := (ExpiredKeys w_scan).1 in
  let w' := (clearItems keys w).2 in
  (clearItems keys w).1 = tt
  /\ GC_tick w_scan = clearItems keys (ExpiredKeys w_scan).2
  /\ (forall k, k ∈ keys ->
        pool (cache w') !! k = None /\ k ∉ (GetItems w').1)
  /\ (forall k, k ∉ keys -> pool (cache w') !! k = pool (cache w) !! k)
  /\ closeCalls w' =
       closeCalls w ++ omap (fun k => Db <$> pool (cache w) !! k) keys
  /\ ((forall k, k ∈ keys -> pool (cache w) !! k = None) -> w' = w)
  /\ warnings w' =
       warnings w ++
       close_warnings (length (closeCalls w))
                      (omap (fun k => Db <$> pool (cache w) !! k) keys).
Proof.
  cbv zeta. pose proof (NoDup_ExpiredKeys w_scan) as Hnd.
  split; [by destruct (clearItems _ w).1|].
  split; [apply GC_tick_run|].
  set (keys := (ExpiredKeys w_scan).1) in *. clearbody keys.
  split; [|split; [|split; [|split]]].
  - intros k Hk. rewrite elem_of_GetItems, clearItems_run. cbn.
    rewrite lookup_delete_all, decide_True by done.
    split; [done | by intros [? ?]].
  - intros k Hk. rewrite clearItems_run. cbn.
    by rewrite lookup_delete_all, decide_False.
  - rewrite clearItems_run. cbn.
    by rewrite closed_by_NoDup.
  - intros Habs. rewrite clearItems_run. cbn.
    rewrite (closed_by_absent _ _ Habs), (delete_all_absent _ _ Habs).
    cbn. rewrite !app_nil_r. by destruct w as [[]].
  - rewrite clearItems_run. cbn.
    by rewrite closed_by_NoDup.
Qed.

(** C6.  [ClearAll] closes, for every entry of the map, the handle of
    that entry, once per entry (in the order the loop visits them, a
    permutation of the entries), whatever [Close] returns; failures of
    [Close] only add warnings.  It leaves the map empty, so [GetItems]
    returns the empty list, and a later [Set] stores its entry as on
    any other cache. *)
Theorem ClearAll_closes_everything (w : World) :
  let w' := (ClearAll w).2 in
  (ClearAll w).1 = tt
  /\ closeCalls w' = closeCalls w ++ ((fun kv => Db kv.2) <$> range (pool (cache w)))
  /\ (fun kv => Db kv.2) <$> range (pool (cache w))
       ≡ₚ (fun kv => Db kv.2) <$> map_to_list (pool (cache w))
  /\ length (closeCalls w') = (length (closeCalls w) + size (pool (cache w)))%nat
  /\ warnings w' =
       warnings w ++
       close_warnings (length (closeCalls w))
                      ((fun kv => Db kv.2) <$> range (pool (cache w)))
  /\ pool (cache w') = ∅
  /\ (GetItems w').1 = []
  /\ (forall key value ttl,
        exists item,
          pool (cache (Set_ key value ttl w').2) !! key = Some item
          /\ Db item = value
          /\ (GetItems (Set_ key value ttl w').2).1 = [key]).
Proof.
  cbv zeta. rewrite ClearAll_clearItems.
  split; [by destruct (clearItems _ w).1|].
  rewrite clearItems_run. cbn [fst snd cache closeCalls warnings pool].
  rewrite closed_by_range, delete_all_range.
  split; [done|]. split; [by rewrite range_perm|].
  split; [|split; [done|split; [done|split]]].
  - rewrite length_app, length_fmap, range_perm. f_equal.
    by rewrite length_map_to_list.
  - rewrite GetItems_run. cbn. by rewrite range_empty.
  - intros key value ttl. rewrite Set_run. cbv zeta.
    eexists. split; [cbn; apply lookup_insert_eq|]. split; [done|].
    rewrite GetItems_run. cbn.
    apply Permutation_singleton_r.
    rewrite range_perm, insert_empty, map_to_list_singleton. done.
Qed.

(** C10.  [GetItems] returns the world it was given; [ExpiredKeys]
    only reads the clock; [Get], when it reports not found, only reads
    the clock.  None of them changes the cache (its keys, entries and
    settings), calls [Close] or logs. *)
Theorem queries_leave_cache_unchanged (w : World) (key : string) :
  (GetItems w).2 = w
  /\ (cache (ExpiredKeys w).2 = cache w
      /\ closeCalls (ExpiredKeys w).2 = closeCalls w
      /\ warnings (ExpiredKeys w).2 = warnings w)
  /\ ((Get key w).1.2 = false ->
      (Get key w).1.1 = None
      /\ cache (Get key w).2 = cache w
      /\ closeCalls (Get key w).2 = closeCalls w
      /\ warnings (Get key w).2 = warnings w).
Proof.
  split; [by rewrite GetItems_run|]. split; [by rewrite ExpiredKeys_run|].
  destruct (pool (cache w) !! key) as [item|] eqn:Hk.
  - destruct (expired_at (clock (nowCalls w)) item) eqn:He.
    + by rewrite (Get_expired _ _ _ Hk He).
    + by rewrite (Get_hit _ _ _ Hk He).
  - by rewrite (Get_absent _ _ Hk).
Qed.

(** C1 (the code at the claim).  Two calls of [Set] on one key leave
    the second handle under the key, and [Get] returns it while the
    entry is not expired; neither call of [Set] calls [Close]: the
    handle of the first call is dropped from the map without having
    been closed. *)
Theorem Set_overwrite_closes_nothing (w : World) (key : string)
    (v1 v2 : Handle) (ttl1 ttl2 : time_Duration) :
  let w1 := (Set_ key v1 ttl1 w).2 in
  let w2 := (Set_ key v2 ttl2 w1).2 in
  Db <$> pool (cache w1) !! key = Some v1
  /\ Db <$> pool (cache w2) !! key = Some v2
  /\ closeCalls w2 = closeCalls w
  /\ (forall item, pool (cache w2) !! key = Some item ->
      expired_at (clock (nowCalls w2)) item = false ->
      (Get key w2).1 = (Some v2, true)
      /\ closeCalls (Get key w2).2 = closeCalls w).
Proof.
  cbv zeta. rewrite !Set_run. cbv zeta. cbn [snd set_pool cache pool closeCalls after_reads].
  rewrite !lookup_insert_eq. cbn [fmap option_fmap option_map Db].
  split; [done|]. split; [done|]. split; [done|].
  intros item Hitem He.
  match goal with
  | |- context [Get key ?w2] =>
      assert (pool (cache w2) !! key = Some item) as Hk
        by (cbn; by rewrite lookup_insert_eq)
  end.
  rewrite (Get_hit _ _ _ Hk). 2: exact He.
  injection Hitem as <-. done.
Qed.

(** ** Sliding expiration *)

(** An entry whose expiration was computed from the reading [t] and the
    ttl [d] is not expired at a reading that is no later than [t + d]. *)
Lemma in_window_not_expired (item : PoolItem) (t now : time_Time) :
  0 < Duration item < 2 ^ 63 ->
  Expiration item = UnixNano (Add t (Duration item)) ->
  int64_range t -> int64_range now -> now <= t + Duration item ->
  expired_at now item = false.
Proof.
  intros Hd Hexp Ht Hnow Hle. unfold expired_at, int64_range in *.
  destruct (Z_lt_dec (t + Duration item) (2 ^ 63)) as [Hfit|Hover].
  - rewrite UnixNano_Add_exact in Hexp by (unfold int64_range; lia).
    apply andb_false_iff. right. apply Z.ltb_ge.
    unfold UnixNano. rewrite wrap64_id by done. lia.
  - rewrite UnixNano_Add_wraps in Hexp by lia.
    apply andb_false_iff. left. apply Z.ltb_ge. lia.
Qed.

(** Repeated calls of [Get], each made no later than the ttl after the
    refresh of the one before, all hit. *)
Lemma Get_times_in_window (d : time_Duration) (h : Handle) (key : string) :
  0 < d < 2 ^ 63 ->
  (forall i, int64_range (clock i)) ->
  (forall i, clock (S (S i)) <= clock i + d) ->
  forall n w item m,
    pool (cache w) !! key = Some item ->
    Db item = h -> Duration item = d ->
    Expiration item = UnixNano (Add (clock m) d) -> nowCalls w = S (S m) ->
    Forall (fun r => r = (Some h, true)) (Get_times n key w).1.
Proof.
  intros Hd Hclk Hgap. induction n as [|n IH]; intros w item m Hk Hdb Hdur Hexp Hnow.
  - cbn. constructor.
  - assert (expired_at (clock (nowCalls w)) item = false) as He.
    { apply (in_window_not_expired item (clock m)); rewrite ?Hdur; try done.
      rewrite Hnow. apply Hgap. }
    cbn [Get_times]. unfold bind at 1. rewrite (Get_hit _ _ _ Hk He).
    unfold bind at 1.
    match goal with
    | |- context [Get_times n key ?w1] =>
        specialize (IH w1 (refreshed item (nowCalls w))
                       (check_reads item + nowCalls w)%nat);
        destruct (Get_times n key w1) as [rs w2]
    end.
    cbn [fst snd ret] in *. constructor; [by rewrite Hdb|].
    assert (refresh_reads item = 1%nat) as Hr.
    { unfold refresh_reads. rewrite Hdur.
      by assert ((0 <? d) = true) as -> by (apply Z.ltb_lt; lia). }
    apply IH.
    + cbn. apply lookup_insert_eq.
    + done.
    + done.
    + unfold refreshed. cbn. rewrite Hdur.
      by assert ((0 <? d) = true) as -> by (apply Z.ltb_lt; lia).
    + cbn. rewrite Hr. lia.
Qed.

(** Repeated calls of [Get] on an entry that carries the sentinel and a
    ttl that is not positive all hit. *)
Lemma Get_times_sentinel (h : Handle) (key : string) :
  forall n w item,
    pool (cache w) !! key = Some item ->
    Db item = h -> Duration item <= 0 -> Expiration item = 0 ->
    Forall (fun r => r = (Some h, true)) (Get_times n key w).1.
Proof.
  induction n as [|n IH]; intros w item Hk Hdb Hdur Hexp.
  - cbn. constructor.
  - assert (expired_at (clock (nowCalls w)) item = false) as He
      by (unfold expired_at; by rewrite Hexp).
    cbn [Get_times]. unfold bind at 1. rewrite (Get_hit _ _ _ Hk He).
    unfold bind at 1.
    match goal with
    | |- context [Get_times n key ?w1] =>
        specialize (IH w1 (refreshed item (nowCalls w)));
        destruct (Get_times n key w1) as [rs w2]
    end.
    cbn [fst snd ret] in *. constructor; [by rewrite Hdb|].
    apply IH; [cbn; apply lookup_insert_eq | done | done |].
    unfold refreshed. cbn.
    by assert ((0 <? Duration item) = false) as -> by (apply Z.ltb_ge; lia).
Qed.

(** C3, as the code has it.  On a key whose entry is present and not
    expired at the time of the call, [Get] returns the handle of the
    entry and found, closes nothing, and writes back an entry with the
    same handle and the same ttl, created at the last clock reading of
    the call.  The expiration it writes is the sentinel [0] when the ttl
    is not positive; when the ttl is positive it is the [int64] that
    [UnixNano] returns for the clock reading plus the ttl: the sum itself
    when the sum is an [int64], and the sum minus [2^64], a negative
    number, when the sum lies in [[2^63, 2^63 + 2^64)].  Hence, when the
    ttl is not positive, or when the ttl is a positive [int64] and the
    clock readings are [int64]s: a later [Get] on the entry as written
    back, made at a clock reading that is no later than the reading of
    the refresh plus the ttl, returns the handle and found; and any
    number of calls of [Get] in a row all return the handle and found
    when every clock reading is at most the ttl later than the reading
    two readings before it. *)
Theorem Get_hit_refreshes (w : World) (key : string) (item : PoolItem) :
  pool (cache w) !! key = Some item ->
  expired_at (clock (nowCalls w)) item = false ->
  let now := clock (check_reads item + nowCalls w) in
  let created := clock (refresh_reads item + check_reads item + nowCalls w) in
  let w' := (Get key w).2 in
  let hit := (Some (Db item), true) in
  (Get key w).1 = hit
  /\ pool (cache w') =
       <[key := mkPoolItem
                  (if 0 <? Duration item
                   then UnixNano (Add now (Duration item)) else 0)
                  (Duration item) created (Db item)]> (pool (cache w))
  /\ (0 < Duration item -> int64_range (now + Duration item) ->
      Expiration <$> pool (cache w') !! key = Some (now + Duration item))
  /\ (0 < Duration item -> 2 ^ 63 <= now + Duration item < 2 ^ 63 + 2 ^ 64 ->
      Expiration <$> pool (cache w') !! key = Some (now + Duration item - 2 ^ 64))
  /\ (Duration item <= 0 -> Expiration <$> pool (cache w') !! key = Some 0)
  /\ closeCalls w' = closeCalls w
  /\ (forall w2,
        pool (cache w2) !! key = pool (cache w') !! key ->
        Duration item <= 0
        \/ (Duration item < 2 ^ 63 /\ int64_range now
            /\ int64_range (clock (nowCalls w2))
            /\ clock (nowCalls w2) <= now + Duration item) ->
        (Get key w2).1 = hit)
  /\ (Duration item <= 0
      \/ (Duration item < 2 ^ 63 /\ (forall i, int64_range (clock i))
          /\ (forall i, clock (S (S i)) <= clock i + Duration item)) ->
      forall n, Forall (fun r => r = hit) (Get_times n key w').1).
Proof.
  intros Hk He. cbv zeta. rewrite (Get_hit _ _ _ Hk He).
  cbn [fst snd set_pool cache pool closeCalls after_reads].
  split; [done|]. split; [done|].
  rewrite lookup_insert_eq. cbn [fmap option_fmap option_map refreshed Expiration].
  split; [|split; [|split; [|split; [done|split]]]].
  - intros Hpos Hrange. apply Z.ltb_lt in Hpos as ->.
    by rewrite UnixNano_Add_exact.
  - intros Hpos Hrange. apply Z.ltb_lt in Hpos as ->.
    by rewrite UnixNano_Add_wraps.
  - intros Hle. by assert ((0 <? Duration item) = false) as -> by (apply Z.ltb_ge; lia).
  - intros w2 Hk2 Hor.
    assert (expired_at (clock (nowCalls w2)) (refreshed item (nowCalls w)) = false) as He2.
    { destruct Hor as [Hle|(Hlt & Hnow & Hnow2 & Hwin)].
      - unfold expired_at, refreshed. cbn.
        by assert ((0 <? Duration item) = false) as -> by (apply Z.ltb_ge; lia).
      - destruct (Z_lt_dec 0 (Duration item)) as [Hpos|Hnpos].
        + apply (in_window_not_expired _ (clock (check_reads item + nowCalls w)));
            try done.
          unfold refreshed. cbn. by apply Z.ltb_lt in Hpos as ->.
        + unfold expired_at, refreshed. cbn.
          by assert ((0 <? Duration item) = false) as -> by (apply Z.ltb_ge; lia). }
    by rewrite (Get_hit _ _ _ Hk2 He2).
  - intros Hor n.
    destruct (Z_lt_dec 0 (Duration item)) as [Hpos|Hnpos].
    + destruct Hor as [Hle|(Hlt & Hclk & Hgap)]; [lia|].
      apply (Get_times_in_window (Duration item) (Db item) key (conj Hpos Hlt)
               Hclk Hgap n _ (refreshed item (nowCalls w))
               (check_reads item + nowCalls w)%nat).
      * cbn. apply lookup_insert_eq.
      * done.
      * done.
      * unfold refreshed. cbn. by apply Z.ltb_lt in Hpos as ->.
      * cbn. unfold refresh_reads. apply Z.ltb_lt in Hpos as ->. lia.
    + apply (Get_times_sentinel (Db item) key n _ (refreshed item (nowCalls w))).
      * cbn. apply lookup_insert_eq.
      * done.
      * cbn. lia.
      * unfold refreshed. cbn.
        by assert ((0 <? Duration item) = false) as -> by (apply Z.ltb_ge; lia).
Qed.

(** ** Entries that never expire *)

Lemma never_expire_not_expired now item :
  Expiration item = 0 -> expired_at now item = false.
Proof. intros H. unfold expired_at. by rewrite H. Qed.

Lemma not_elem_of_ExpiredKeys w key item :
  pool (cache w) !! key = Some item -> Expiration item <= 0 ->
  key ∉ (ExpiredKeys w).1.
Proof.
  intros Hk Hexp Hin. apply elem_of_ExpiredKeys in Hin as (it & Hit & Hpos).
  rewrite Hk in Hit. injection Hit as <-. lia.
Qed.

Lemma Get_lookup_ne w k key :
  k <> key -> pool (cache (Get k w).2) !! key = pool (cache w) !! key.
Proof.
  intros Hne. destruct (pool (cache w) !! k) as [it|] eqn:Hk.
  - destruct (expired_at (clock (nowCalls w)) it) eqn:He.
    + by rewrite (Get_expired _ _ _ Hk He).
    + rewrite (Get_hit _ _ _ Hk He). cbn. by rewrite lookup_insert_ne.
  - by rewrite (Get_absent _ _ Hk).
Qed.

Lemma Delete_lookup_ne w k key :
  k <> key -> pool (cache (Delete k w).2) !! key = pool (cache w) !! key.
Proof.
  intros Hne. destruct (pool (cache w) !! k) as [it|] eqn:Hk.
  - rewrite (Delete_present _ _ _ Hk). cbn. by rewrite lookup_delete_ne.
  - by rewrite (Delete_absent _ _ Hk).
Qed.

Lemma never_expires_step key h e s :
  never_expires key h s -> touches key e = false ->
  never_expires key h (step e s).
Proof.
  intros [(item & Hk & Hdb & Hexp & Hdur) Hsnap] Ht.
  destruct e as [k v d|k|k| | | | |]; cbn [step touches] in *.
  - apply bool_decide_eq_false in Ht. split; [|done].
    exists item. rewrite Set_run. cbn. by rewrite lookup_insert_ne.
  - split; [|done]. destruct (decide (k = key)) as [->|Hne].
    + rewrite (Get_hit _ _ _ Hk (never_expire_not_expired _ _ Hexp)). cbn.
      exists (refreshed item (nowCalls (world s))).
      rewrite lookup_insert_eq. unfold refreshed. cbn.
      by assert ((0 <? Duration item) = false) as -> by (apply Z.ltb_ge; lia).
    + exists item. cbn [world]. by rewrite Get_lookup_ne.
  - apply bool_decide_eq_false in Ht. split; [|done].
    exists item. cbn [world]. by rewrite Delete_lookup_ne.
  - split; [|done]. exists item. by rewrite GetItems_run.
  - split; [|done]. exists item. by rewrite ExpiredKeys_run.
  - done.
  - destruct (snapshot s) as [keys|] eqn:Hs.
    + split; [by exists item | by rewrite Hs].
    + split.
      * exists item. cbn [world snd]. by rewrite ExpiredKeys_run.
      * cbn [snapshot]. intros keys Hkeys.
        destruct (length (ExpiredKeys (world s)).1 =? 0)%nat; [done|].
        injection Hkeys as <-.
        apply (not_elem_of_ExpiredKeys _ _ _ Hk). lia.
  - destruct (snapshot s) as [keys|] eqn:Hs.
    + split; [|done]. exists item. rewrite clearItems_run. cbn.
      rewrite lookup_delete_all, decide_False; [done|]. by apply Hsnap.
    + split; [by exists item|]. by rewrite Hs.
Qed.

Lemma never_expires_run key h tr s :
  never_expires key h s -> Forall (fun e => touches key e = false) tr ->
  never_expires key h (run tr s).
Proof.
  unfold run. revert s. induction tr as [|e tr IH]; intros s Hs Hall; cbn; [done|].
  apply Forall_cons in Hall as [He Hall].
  apply IH; [|done]. by apply never_expires_step.
Qed.

Lemma GC_keeps_never_expiring key item n : forall w,
  pool (cache w) !! key = Some item -> Expiration item <= 0 ->
  pool (cache (GC n w).2) !! key = Some item.
Proof.
  induction n as [|n IH]; intros w Hk Hexp; cbn [GC]; [done|].
  unfold bind. rewrite GC_tick_run.
  pose proof (not_elem_of_ExpiredKeys _ _ _ Hk Hexp) as Hnot.
  rewrite clearItems_run. apply IH; [|done]. cbn [snd cache pool].
  rewrite lookup_delete_all, decide_False by done.
  by rewrite ExpiredKeys_run.
Qed.

(** X1.  An entry that [Set] stored with ttl [0] on a cache whose
    [defaultExpiration] is [0] carries the sentinel.  Whatever the
    clock shows, and whatever other goroutines and the sweeper do
    later, short of a call that replaces or removes the entry, and
    provided the sweeper held no snapshot naming the key when the entry
    was stored: [Get] returns the handle and found, [ExpiredKeys] does
    not list the key, no snapshot of the sweeper names it, and any
    number of ticks of [GC] leave it for [Get] to find. *)
Theorem never_expire_entry_stays (key : string) (h : Handle)
    (s0 : System) (tr : list Event) :
  defaultExpiration (cache (world s0)) = 0 ->
  (forall keys, snapshot s0 = Some keys -> key ∉ keys) ->
  Forall (fun e => touches key e = false) tr ->
  let s := run tr (step (CallSet key h 0) s0) in
  (Get key (world s)).1 = (Some h, true)
  /\ (key ∉ (ExpiredKeys (world s)).1)
  /\ (forall keys, snapshot s = Some keys -> key ∉ keys)
  /\ (forall n, (Get key (GC n (world s)).2).1 = (Some h, true)).
Proof.
  intros Hdef Hsnap Htr. cbv zeta.
  assert (never_expires key h (step (CallSet key h 0) s0)) as H0.
  { split; [|done]. cbn [step world]. rewrite Set_run. cbv zeta. cbn.
    rewrite Hdef. cbn. eexists. rewrite lookup_insert_eq. split; [done|].
    cbn. repeat split; lia. }
  pose proof (never_expires_run _ _ _ _ H0 Htr) as [(item & Hk & Hdb & Hexp & Hdur) Hs].
  split; [|split; [|split; [done|]]].
  - rewrite (Get_hit _ _ _ Hk (never_expire_not_expired _ _ Hexp)). cbn. by rewrite Hdb.
  - apply (not_elem_of_ExpiredKeys _ _ _ Hk). lia.
  - intros n.
    assert (pool (cache (GC n (world (run tr (step (CallSet key h 0) s0)))).2) !! key
            = Some item) as Hk' by (apply GC_keeps_never_expiring; [done|lia]).
    rewrite (Get_hit _ _ _ Hk' (never_expire_not_expired _ _ Hexp)). cbn.
    by rewrite Hdb.
Qed.

(** ** The lock discipline *)

Lemma holders_insert m ts i x y :
  ts !! i = Some x ->
  (holders m (<[i := y]> ts) + weight m x = holders m ts + weight m y)%nat.
Proof.
  revert i. induction ts as [|t ts IH]; intros i Hi; [done|].
  destruct i as [|i]; simpl in *.
  - injection Hi as ->. lia.
  - specialize (IH i Hi). lia.
Qed.

Lemma holders_lookup m ts i e :
  ts !! i = Some (Inside e) -> lock_mode e = m -> (1 <= holders m ts)%nat.
Proof.
  intros Hi Hm. pose proof (holders_insert m ts i _ Finished Hi) as H.
  cbn in H. rewrite Hm in H. destruct m; lia.
Qed.

Lemma holders_lookup2 m ts i j e1 e2 :
  i <> j -> ts !! i = Some (Inside e1) -> ts !! j = Some (Inside e2) ->
  lock_mode e1 = m -> lock_mode e2 = m -> (2 <= holders m ts)%nat.
Proof.
  intros Hne Hi Hj H1 H2.
  pose proof (holders_insert m ts i _ Finished Hi) as H.
  assert (<[i := Finished]> ts !! j = Some (Inside e2)) as Hj'
    by (by rewrite list_lookup_insert_ne).
  pose proof (holders_lookup m _ j e2 Hj' H2).
  cbn in H. rewrite H1 in H. destruct m; lia.
Qed.

Lemma lock_consistent_step st st' :
  lock_consistent st -> sched_step st st' -> lock_consistent st'.
Proof.
  intros (Hr & Hw0 & Hw1) Hstep.
  destruct Hstep as [l ts i e Hi Hcan | l ts i e Hi]; cbn in *.
  - pose proof (holders_insert RLock ts i _ (Inside e) Hi) as HR.
    pose proof (holders_insert Lock ts i _ (Inside e) Hi) as HL.
    cbn in HR, HL. unfold lock_consistent. cbn.
    destruct (lock_mode e); cbn in *.
    + apply negb_true_iff in Hcan. rewrite Hcan in *.
      specialize (Hw0 eq_refl). repeat split; [lia | intros _; lia | done | done].
    + apply andb_true_iff in Hcan as [Hcan Hz].
      apply negb_true_iff in Hcan. apply Nat.eqb_eq in Hz.
      specialize (Hw0 Hcan). repeat split; [lia | done | lia | lia].
  - pose proof (holders_insert RLock ts i _ Finished Hi) as HR.
    pose proof (holders_insert Lock ts i _ Finished Hi) as HL.
    cbn in HR, HL. unfold lock_consistent. cbn.
    destruct (lock_mode e) eqn:Hm; cbn in *.
    + destruct (writer l); [specialize (Hw1 eq_refl); lia|].
      specialize (Hw0 eq_refl). repeat split; [lia | intros _; lia | done | done].
    + destruct (writer l); [|specialize (Hw0 eq_refl); lia].
      specialize (Hw1 eq_refl). repeat split; [lia | intros _; lia | done | done].
Qed.

Lemma lock_consistent_rtc st st' :
  lock_consistent st -> rtc sched_step st st' -> lock_consistent st'.
Proof.
  intros H Hsteps. induction Hsteps as [|st1 st2 st3 Hstep _ IH]; [done|].
  apply IH. by apply (lock_consistent_step st1).
Qed.

(** A goroutine that holds the lock in write mode is alone inside. *)
Lemma writer_is_alone l ts i j e1 e2 :
  lock_consistent (l, ts) -> i <> j ->
  ts !! i = Some (Inside e1) -> ts !! j = Some (Inside e2) ->
  lock_mode e1 = Lock -> False.
Proof.
  intros (Hr & Hw0 & Hw1) Hne Hi Hj Hm. cbn in *.
  pose proof (holders_lookup Lock ts i e1 Hi Hm) as H1.
  destruct (writer l); [|specialize (Hw0 eq_refl); lia].
  destruct (Hw1 eq_refl) as [HL HR].
  destruct (lock_mode e2) eqn:Hm2.
  - pose proof (holders_lookup RLock ts j e2 Hj Hm2). lia.
  - pose proof (holders_lookup2 Lock ts i j e1 e2 Hne Hi Hj Hm Hm2). lia.
Qed.

(** The operations that [writes_pool] marks as readers leave the map
    as it is. *)
Lemma readers_leave_pool e s :
  writes_pool e = false ->
  pool (cache (world (step e s))) = pool (cache (world s)).
Proof.
  destruct e; try done; intros _; cbn [step world].
  - by rewrite GetItems_run.
  - by rewrite ExpiredKeys_run.
  - destruct (snapshot s); [done|]. cbn [world snd]. by rewrite ExpiredKeys_run.
Qed.

(** [Get] is the one operation that writes the map under [RLock]. *)
Lemma writer_under_RLock_is_Get e :
  writes_pool e = true -> lock_mode e = RLock -> exists key, e = CallGet key.
Proof. destruct e; try done. intros _ _. by eexists. Qed.

(** X2.  Goroutines none of which calls [Get] never race: whenever one is
    inside an operation that writes the map, no other is inside. *)
Theorem no_race_without_Get (ts0 : list Thread) (l : RWMutex) (ts : list Thread) :
  lock_consistent (mkRWMutex 0 false, ts0) ->
  rtc sched_step (mkRWMutex 0 false, ts0) (l, ts) ->
  (forall i key, ts !! i <> Some (Inside (CallGet key))) ->
  ~ data_race ts.
Proof.
  intros H0 Hreach Hnoget (i & j & e1 & e2 & Hne & Hi & Hj & Hw).
  pose proof (lock_consistent_rtc _ _ H0 Hreach) as Hc.
  destruct (lock_mode e1) eqn:Hm.
  - destruct (writer_under_RLock_is_Get e1 Hw Hm) as [key ->].
    by apply (Hnoget i key).
  - by apply (writer_is_alone l ts i j e1 e2).
Qed.

(** C9 (the code at the claim).  [Get] takes the lock in read mode,
    and its body assigns to the map: there is a world in which the call
    changes the map.  Two goroutines that call [Get] can therefore both
    be inside it at once, each about to write the map, which is a data
    race. *)
Theorem Get_writes_under_RLock :
  lock_mode (CallGet "a") = RLock
  /\ writes_pool (CallGet "a") = true
  /\ (exists w, (Get "a" w).1.2 = true
                /\ pool (cache (Get "a" w).2) <> pool (cache w))
  /\ (exists l ts,
        rtc sched_step
            (mkRWMutex 0 false, [Waiting (CallGet "a"); Waiting (CallGet "a")])
            (l, ts)
        /\ data_race ts).
Proof.
  split; [done|]. split; [done|]. split.
  - set (item := mkPoolItem 0 0 (clock 0 + 1) 7%nat).
    exists (mkWorld (mkCache {["a" := item]} 0 0) 0 [] []).
    assert (pool (cache (mkWorld (mkCache {["a" := item]} 0 0) 0 [] [])) !! "a"
            = Some item) as Hk by (cbn; apply lookup_singleton_eq).
    rewrite (Get_hit _ _ _ Hk eq_refl). cbn. split; [done|].
    intros Heq.
    assert (Some (refreshed item 0) = Some item) as Hitem.
    { rewrite <- (lookup_insert_eq ({["a" := item]} : gmap string PoolItem) "a"
                    (refreshed item 0)).
      rewrite Heq. apply lookup_singleton_eq. }
    injection Hitem. unfold refreshed. cbn. lia.
  - exists (mkRWMutex 2 false), [Inside (CallGet "a"); Inside (CallGet "a")].
    split.
    + eapply rtc_l; [apply (sched_acquire _ _ 0%nat (CallGet "a")); done|].
      eapply rtc_l; [apply (sched_acquire _ _ 1%nat (CallGet "a")); done|].
      cbn. apply rtc_refl.
    + exists 0%nat, 1%nat, (CallGet "a"), (CallGet "a"). by repeat split.
Qed.

(** * Further properties *)

(** ** Round trips *)

(** X3.  [Set] then [Get], for a positive ttl and clock readings that
    are [int64] counts after the epoch: [Get] returns the handle exactly
    when its reading of the clock is no later than the reading of [Set]
    plus the ttl, and reports not found exactly when it is later. *)
Theorem Set_then_Get (w : World) (key : string) (value : Handle)
    (ttl : time_Duration) :
  let eff := if ttl =? 0 then defaultExpiration (cache w) else ttl in
  let w1 := (Set_ key value ttl w).2 in
  let stored := clock (nowCalls w) in
  let asked := clock (nowCalls w1) in
  0 < eff -> 0 < stored + eff -> int64_range (stored + eff) ->
  int64_range asked ->
  ((Get key w1).1 = (Some value, true) <-> asked <= stored + eff)
  /\ ((Get key w1).1 = (None, false) <-> stored + eff < asked).
Proof.
  cbv zeta. rewrite Set_run. cbv zeta. cbn [snd].
  set (eff := if ttl =? 0 then defaultExpiration (cache w) else ttl) in *.
  intros Heff Hpos Hsum Hasked.
  assert ((0 <? eff) = true) as E by (by apply Z.ltb_lt).
  rewrite E in *. rewrite UnixNano_Add_exact in * by done.
  set (item := mkPoolItem (clock (nowCalls w) + eff) eff
                          (clock (1 + nowCalls w)) value) in *.
  set (w1 := set_pool _ _) in *.
  assert (pool (cache w1) !! key = Some item) as Hk
    by (subst w1; cbn; apply lookup_insert_eq).
  assert (Expiration item = clock (nowCalls w) + eff) as Hexp by done.
  destruct (expired_at (clock (nowCalls w1)) item) eqn:He.
  - rewrite (Get_expired _ _ _ Hk He). cbn [fst].
    unfold expired_at in He. apply andb_true_iff in He as [_ He].
    apply Z.ltb_lt in He. unfold UnixNano in He.
    rewrite wrap64_id, Hexp in He by done.
    split; split; (done || lia).
  - rewrite (Get_hit _ _ _ Hk He). cbn [fst].
    unfold expired_at in He. rewrite Hexp in He.
    apply andb_false_iff in He as [He|He]; apply Z.ltb_ge in He; [lia|].
    unfold UnixNano in He. rewrite wrap64_id in He by done.
    split; split; (done || lia).
Qed.

(** X4.  [Set] then [Delete]: [Delete] succeeds and calls [Close] on
    the handle just stored, once; the map is then the map before the
    [Set] without the key; [Get] on the key reports not found and a
    second [Delete] fails, and neither changes anything or closes
    anything again. *)
Theorem Set_then_Delete (w : World) (key : string) (value : Handle)
    (ttl : time_Duration) :
  let w1 := (Set_ key value ttl w).2 in
  let w2 := (Delete key w1).2 in
  (Delete key w1).1 = None
  /\ closeCalls w2 = closeCalls w ++ [value]
  /\ pool (cache w2) = delete key (pool (cache w))
  /\ Get key w2 = ((None, false), w2)
  /\ Delete key w2 = (Some "key not found"%string, w2).
Proof.
  cbv zeta. rewrite Set_run. cbv zeta. cbn [snd].
  match goal with
  | |- context [Delete key ?w1] =>
      assert (exists item, pool (cache w1) !! key = Some item /\ Db item = value)
        as (item & Hk & Hdb)
        by (eexists; split; [cbn; apply lookup_insert_eq | done]);
      rewrite (Delete_present w1 key item Hk)
  end.
  cbn [fst snd cache pool closeCalls set_pool after_reads].
  rewrite Hdb, delete_insert_eq.
  split; [done|]. split; [done|]. split; [done|].
  split; [apply Get_absent | apply Delete_absent]; cbn; apply lookup_delete_eq.
Qed.

(** ** Handles are neither lost nor closed twice *)

Lemma stored_handles_delete (m : gmap string PoolItem) k item :
  m !! k = Some item ->
  stored_handles m ≡ₚ Db item :: stored_handles (delete k m).
Proof.
  intros Hk. unfold stored_handles.
  by rewrite <- (map_to_list_delete m k item Hk).
Qed.

Lemma stored_handles_refresh (m : gmap string PoolItem) k item item' :
  m !! k = Some item -> Db item' = Db item ->
  stored_handles (<[k := item']> m) ≡ₚ stored_handles m.
Proof.
  intros Hk Hdb. rewrite (stored_handles_delete m k item Hk).
  rewrite <- insert_delete_eq. unfold stored_handles.
  rewrite map_to_list_insert by apply lookup_delete_eq.
  cbn. by rewrite Hdb.
Qed.

Lemma clearItems_handles keys (m : gmap string PoolItem) :
  stored_handles (delete_all keys m) ++ closed_by keys m ≡ₚ stored_handles m.
Proof.
  revert m. induction keys as [|k keys IH]; intros m; cbn [closed_by].
  - by rewrite app_nil_r.
  - change (delete_all (k :: keys) m) with (delete_all keys (delete k m)).
    destruct (m !! k) as [item|] eqn:Hk.
    + rewrite (stored_handles_delete m k item Hk). cbn [app].
      rewrite <- Permutation_middle. by rewrite IH.
    + cbn [app]. rewrite IH. by rewrite delete_id.
Qed.

Lemma handles_step e s :
  is_Set e = false -> handles (world (step e s)) ≡ₚ handles (world s).
Proof.
  assert (forall keys w, handles (clearItems keys w).2 ≡ₚ handles w) as Hclear.
  { intros keys w. rewrite clearItems_run. unfold handles. cbn.
    rewrite (Permutation_app_comm (closeCalls w)), app_assoc.
    by rewrite clearItems_handles. }
  destruct e as [k v d|k|k| | | | |]; intros He; try done; cbn [step world].
  - destruct (pool (cache (world s)) !! k) as [item|] eqn:Hk.
    + destruct (expired_at (clock (nowCalls (world s))) item) eqn:Hx.
      * by rewrite (Get_expired _ _ _ Hk Hx).
      * rewrite (Get_hit _ _ _ Hk Hx). unfold handles. cbn.
        by rewrite (stored_handles_refresh _ k item).
    + by rewrite (Get_absent _ _ Hk).
  - destruct (pool (cache (world s)) !! k) as [item|] eqn:Hk.
    + rewrite (Delete_present _ _ _ Hk). unfold handles. cbn.
      rewrite (stored_handles_delete _ k item Hk). cbn.
      rewrite (Permutation_app_comm (closeCalls (world s))). cbn.
      by rewrite Permutation_middle.
    + by rewrite (Delete_absent _ _ Hk).
  - by rewrite GetItems_run.
  - by rewrite ExpiredKeys_run.
  - rewrite ClearAll_clearItems. apply Hclear.
  - destruct (snapshot s); [done|]. cbn [world snd]. by rewrite ExpiredKeys_run.
  - destruct (snapshot s); [|done]. cbn [world]. apply Hclear.
Qed.

(** X5.  In a run of calls and sweeper steps none of which is a [Set],
    the handles the map holds together with the handles closed so far
    stay the same collection: [Get], [Delete], [ClearAll] and the sweeper
    close a handle exactly when they take its entry out of the map, and
    [Get] never exchanges a handle.  A [Set] on a key the map does not
    hold adds its handle to the collection.  So when the handles are
    distinct to begin with, no handle is closed twice, and no handle
    that was closed is still in the map. *)
Theorem handles_are_kept (tr : list Event) (s : System) :
  Forall (fun e => is_Set e = false) tr ->
  handles (world (run tr s)) ≡ₚ handles (world s)
  /\ (forall key value ttl,
        pool (cache (world (run tr s))) !! key = None ->
        handles (Set_ key value ttl (world (run tr s))).2
        ≡ₚ value :: handles (world s))
  /\ (NoDup (handles (world s)) ->
      NoDup (closeCalls (world (run tr s)))
      /\ (forall h, h ∈ closeCalls (world (run tr s)) ->
            h ∉ stored_handles (pool (cache (world (run tr s)))))).
Proof.
  intros Htr.
  assert (handles (world (run tr s)) ≡ₚ handles (world s)) as Hrun.
  { unfold run. revert s. induction Htr as [|e tr He _ IH]; intros s; cbn; [done|].
    rewrite IH. by apply handles_step. }
  split; [done|]. split.
  - intros key value ttl Hk.
    rewrite <- Hrun, Set_run. cbv zeta. unfold handles, stored_handles. cbn.
    by rewrite map_to_list_insert by done.
  - intros Hnd. rewrite <- Hrun in Hnd. unfold handles in Hnd.
    apply NoDup_app in Hnd as (_ & Hdisj & Hclosed).
    split; [done|]. intros h Hc Hs. by apply (Hdisj h).
Qed.

(** ** What every reachable cache satisfies *)

Lemma map_Forall_delete_all (P : string -> PoolItem -> Prop) keys
    (m : gmap string PoolItem) :
  map_Forall P m -> map_Forall P (delete_all keys m).
Proof.
  unfold delete_all. revert m. induction keys as [|k keys IH]; intros m H; cbn; [done|].
  by apply IH, map_Forall_delete.
Qed.

Lemma entry_ok_written dflt d now created h :
  (d = 0 -> dflt = 0) ->
  entry_ok dflt (mkPoolItem (if 0 <? d then UnixNano (Add now d) else 0) d created h).
Proof.
  intros Hd. unfold entry_ok. cbn. destruct (0 <? d) eqn:E.
  - apply Z.ltb_lt in E. split; [apply wrap64_range|]. split; [lia | done].
  - split; [unfold int64_range; lia|]. split; done.
Qed.

Lemma cache_ok_step e s : cache_ok (world s) -> cache_ok (world (step e s)).
Proof.
  assert (forall keys w, cache_ok w -> cache_ok (clearItems keys w).2) as Hclear.
  { intros keys w Hw. rewrite clearItems_run. unfold cache_ok. cbn.
    by apply map_Forall_delete_all. }
  intros Hs. destruct e as [k v d|k|k| | | | |]; cbn [step world].
  - rewrite Set_run. cbv zeta. unfold cache_ok. cbn.
    apply map_Forall_insert_2; [|done]. apply entry_ok_written.
    destruct (d =? 0) eqn:E; [done|]. apply Z.eqb_neq in E. by intros ->.
  - destruct (pool (cache (world s)) !! k) as [item|] eqn:Hk.
    + destruct (expired_at (clock (nowCalls (world s))) item) eqn:Hx.
      * by rewrite (Get_expired _ _ _ Hk Hx).
      * rewrite (Get_hit _ _ _ Hk Hx). unfold cache_ok. cbn.
        apply map_Forall_insert_2; [|done]. apply entry_ok_written.
        by destruct (Hs k item Hk) as (_ & _ & ?).
    + by rewrite (Get_absent _ _ Hk).
  - destruct (pool (cache (world s)) !! k) as [item|] eqn:Hk.
    + rewrite (Delete_present _ _ _ Hk). unfold cache_ok. cbn.
      by apply map_Forall_delete.
    + by rewrite (Delete_absent _ _ Hk).
  - by rewrite GetItems_run.
  - by rewrite ExpiredKeys_run.
  - rewrite ClearAll_clearItems. by apply Hclear.
  - destruct (snapshot s); [done|]. cbn [world snd]. by rewrite ExpiredKeys_run.
  - destruct (snapshot s); [|done]. cbn [world]. by apply Hclear.
Qed.

Lemma settings_step e s :
  defaultExpiration (cache (world (step e s))) = defaultExpiration (cache (world s))
  /\ cleanupInterval (cache (world (step e s))) = cleanupInterval (cache (world s)).
Proof.
  destruct e as [k v d|k|k| | | | |]; cbn [step world].
  - by rewrite Set_run.
  - destruct (pool (cache (world s)) !! k) as [item|] eqn:Hk.
    + destruct (expired_at (clock (nowCalls (world s))) item) eqn:Hx.
      * by rewrite (Get_expired _ _ _ Hk Hx).
      * by rewrite (Get_hit _ _ _ Hk Hx).
    + by rewrite (Get_absent _ _ Hk).
  - destruct (pool (cache (world s)) !! k) as [item|] eqn:Hk.
    + by rewrite (Delete_present _ _ _ Hk).
    + by rewrite (Delete_absent _ _ Hk).
  - by rewrite GetItems_run.
  - by rewrite ExpiredKeys_run.
  - by rewrite ClearAll_clearItems, clearItems_run.
  - destruct (snapshot s); [done|]. cbn [world snd]. by rewrite ExpiredKeys_run.
  - destruct (snapshot s); [|done]. cbn [world]. by rewrite clearItems_run.
Qed.

(** X6.  In every state that calls and sweeper steps reach from a cache
    made by [New], the settings are those given to [New], and every
    entry has an expiration that is an [int64], carries the sentinel [0]
    when its ttl is not positive, and has the ttl [0] only when
    [defaultExpiration] is [0]. *)
Theorem reachable_entries_are_well_formed (defaultTTL interval : time_Duration)
    (n : nat) (tr : list Event) :
  let w := world (run tr (mkSystem (mkWorld (New defaultTTL interval) n [] []) None)) in
  defaultExpiration (cache w) = defaultTTL
  /\ cleanupInterval (cache w) = interval
  /\ (forall key item, pool (cache w) !! key = Some item ->
        int64_range (Expiration item)
        /\ (Duration item <= 0 -> Expiration item = 0)
        /\ (Duration item = 0 -> defaultTTL = 0)).
Proof.
  cbv zeta.
  set (s0 := mkSystem (mkWorld (New defaultTTL interval) n [] []) None).
  assert (forall tr s,
            cache_ok (world s) ->
            cache_ok (world (run tr s))
            /\ defaultExpiration (cache (world (run tr s)))
               = defaultExpiration (cache (world s))
            /\ cleanupInterval (cache (world (run tr s)))
               = cleanupInterval (cache (world s))) as Hrun.
  { clear. unfold run. induction tr as [|e tr IH]; intros s Hs; cbn; [done|].
    destruct (IH (step e s) (cache_ok_step e s Hs)) as (H1 & H2 & H3).
    destruct (settings_step e s) as [H4 H5].
    split; [done|]. split; congruence. }
  destruct (Hrun tr s0) as (Hok & Hd & Hc).
  { unfold cache_ok. cbn. apply map_Forall_empty. }
  split; [done|]. split; [done|].
  intros key item Hk. specialize (Hok key item Hk). by rewrite Hd in Hok.
Qed.

(** ** Effects *)

Lemma effects_step e s :
  exists hs,
    closeCalls (world (step e s)) = closeCalls (world s) ++ hs
    /\ warnings (world (step e s))
       = warnings (world s) ++ close_warnings (length (closeCalls (world s))) hs
    /\ (nowCalls (world s) <= nowCalls (world (step e s)))%nat.
Proof.
  assert (forall keys w, exists hs,
            closeCalls (clearItems keys w).2 = closeCalls w ++ hs
            /\ warnings (clearItems keys w).2
               = warnings w ++ close_warnings (length (closeCalls w)) hs
            /\ (nowCalls w <= nowCalls (clearItems keys w).2)%nat) as Hclear.
  { intros keys w. rewrite clearItems_run. cbn. by eexists. }
  assert (forall w n, exists hs : list Handle,
            closeCalls w = closeCalls w ++ hs
            /\ warnings w = warnings w ++ close_warnings n hs) as Hnone.
  { intros w n. exists []. cbn. by rewrite !app_nil_r. }
  destruct e as [k v d|k|k| | | | |]; cbn [step world].
  - rewrite Set_run. cbv zeta. cbn. exists []. cbn. rewrite !app_nil_r.
    repeat split. lia.
  - destruct (pool (cache (world s)) !! k) as [item|] eqn:Hk.
    + destruct (expired_at (clock (nowCalls (world s))) item) eqn:Hx.
      * rewrite (Get_expired _ _ _ Hk Hx). cbn. exists []. cbn.
        rewrite !app_nil_r. repeat split. lia.
      * rewrite (Get_hit _ _ _ Hk Hx). cbn. exists []. cbn.
        rewrite !app_nil_r. repeat split. lia.
    + rewrite (Get_absent _ _ Hk). cbn. exists []. cbn. by rewrite !app_nil_r.
  - destruct (pool (cache (world s)) !! k) as [item|] eqn:Hk.
    + rewrite (Delete_present _ _ _ Hk). cbn. by eexists.
    + rewrite (Delete_absent _ _ Hk). cbn. exists []. cbn. by rewrite !app_nil_r.
  - rewrite GetItems_run. cbn. exists []. cbn. by rewrite !app_nil_r.
  - rewrite ExpiredKeys_run. cbn. exists []. cbn. rewrite !app_nil_r.
    repeat split. lia.
  - rewrite ClearAll_clearItems. apply Hclear.
  - destruct (snapshot s).
    + exists []. cbn. by rewrite !app_nil_r.
    + cbn [world snd]. rewrite ExpiredKeys_run. cbn. exists []. cbn.
      rewrite !app_nil_r. repeat split. lia.
  - destruct (snapshot s).
    + cbn [world]. apply Hclear.
    + exists []. cbn. by rewrite !app_nil_r.
Qed.

(** X7.  Over any run of calls and sweeper steps the log of [Close]
    calls only grows, and the warnings logged during the run are exactly
    those of the calls of [Close] of the run that returned an error, in
    order; the clock is only read forward.  When [Close] never fails, no
    operation logs anything. *)
Theorem warnings_are_the_failed_closes (tr : list Event) (s : System) :
  (exists hs,
     closeCalls (world (run tr s)) = closeCalls (world s) ++ hs
     /\ warnings (world (run tr s))
        = warnings (world s) ++ close_warnings (length (closeCalls (world s))) hs)
  /\ (nowCalls (world s) <= nowCalls (world (run tr s)))%nat
  /\ ((forall n h, close_result n h = None) ->
      warnings (world (run tr s)) = warnings (world s)).
Proof.
  assert (exists hs,
            closeCalls (world (run tr s)) = closeCalls (world s) ++ hs
            /\ warnings (world (run tr s))
               = warnings (world s) ++ close_warnings (length (closeCalls (world s))) hs
            /\ (nowCalls (world s) <= nowCalls (world (run tr s)))%nat)
    as (hs & Hc & Hw & Hn).
  { unfold run. revert s. induction tr as [|e tr IH]; intros s; cbn.
    - exists []. cbn. by rewrite !app_nil_r.
    - destruct (IH (step e s)) as (hs2 & Hc2 & Hw2 & Hn2).
      destruct (effects_step e s) as (hs1 & Hc1 & Hw1 & Hn1).
      exists (hs1 ++ hs2). rewrite Hc2, Hw2, Hc1, Hw1.
      rewrite close_warnings_app, length_app, <- !app_assoc.
      repeat split; [|lia]. do 3 f_equal. lia. }
  split; [by exists hs|]. split; [done|].
  intros Hnofail. rewrite Hw.
  assert (forall n l, close_warnings n l = []) as ->; [|by rewrite app_nil_r].
  intros n l. revert n. induction l as [|h l IH]; intros n; cbn; [done|].
  by rewrite Hnofail, IH.
Qed.

(** ** The scan and the sweep *)

Lemma expired_scan_elem_bound n l k :
  k ∈ expired_scan n l ->
  exists item i, (k, item) ∈ l /\ (n <= i < n + length l)%nat /\
                 0 < Expiration item /\ Expiration item < UnixNano (clock i).
Proof.
  revert n. induction l as [|[k' it] l IH]; intros n; cbn.
  - by intros ?%elem_of_nil.
  - intros [Hin|Hin]%elem_of_app.
    + destruct (Expiration it <? UnixNano (clock n)) eqn:E1;
        destruct (0 <? Expiration it) eqn:E2; cbn in Hin;
        try by apply elem_of_nil in Hin.
      apply list_elem_of_singleton in Hin as ->.
      exists it, n. repeat split; [left | lia | lia | lia | lia].
    + destruct (IH _ Hin) as (item & i & ? & ? & ? & ?).
      exists item, i. repeat split; [by right | lia | lia | done | done].
Qed.

Lemma expired_scan_window n l k item :
  (k, item) ∈ l -> 0 < Expiration item ->
  (forall i, (n <= i < n + length l)%nat -> Expiration item < UnixNano (clock i)) ->
  k ∈ expired_scan n l.
Proof.
  revert n. induction l as [|[k' it] l IH]; intros n Hin Hpos Hexp; cbn.
  - by apply elem_of_nil in Hin.
  - assert ((Expiration item <? UnixNano (clock n)) = true) as E1
      by (apply Z.ltb_lt, Hexp; cbn; lia).
    assert ((0 <? Expiration item) = true) as E2 by (by apply Z.ltb_lt).
    apply elem_of_app. apply elem_of_cons in Hin as [Heq|Hin].
    + simplify_eq. left. rewrite E1, E2. cbn. by left.
    + right. apply (IH (S n)); [done|done|]. intros i Hi. apply Hexp. cbn. lia.
Qed.

Lemma length_range (m : gmap string PoolItem) : length (range m) = size m.
Proof. by rewrite range_perm, length_map_to_list. Qed.

(** X8.  [ExpiredKeys] reads the clock once per entry of the map.  It
    returns keys of the map, none twice; a key it returns has an entry
    whose expiration is set and lies before one of these readings; a key
    whose entry has a set expiration that lies before all of these
    readings is returned; a key is not returned when its entry carries a
    sentinel or its expiration lies before none of these readings. *)
Theorem ExpiredKeys_lists_the_expired (w : World) :
  let keys := (ExpiredKeys w).1 in
  let n := nowCalls w in
  let n' := nowCalls (ExpiredKeys w).2 in
  NoDup keys
  /\ n' = (size (pool (cache w)) + n)%nat
  /\ (forall k, k ∈ keys ->
        k ∈ (GetItems w).1
        /\ exists item i,
             pool (cache w) !! k = Some item /\ 0 < Expiration item
             /\ (n <= i < n')%nat /\ Expiration item < UnixNano (clock i))
  /\ (forall k item,
        pool (cache w) !! k = Some item -> 0 < Expiration item ->
        (forall i, (n <= i < n')%nat -> Expiration item < UnixNano (clock i)) ->
        k ∈ keys)
  /\ (forall k item,
        pool (cache w) !! k = Some item ->
        Expiration item <= 0
        \/ (forall i, (n <= i < n')%nat -> UnixNano (clock i) <= Expiration item) ->
        k ∉ keys).
Proof.
  cbv zeta. pose proof (NoDup_ExpiredKeys w) as Hnd.
  rewrite ExpiredKeys_run in *. cbn [fst snd nowCalls after_reads] in *.
  rewrite length_range.
  assert (forall k, k ∈ expired_scan (nowCalls w) (range (pool (cache w))) ->
            exists item i,
              pool (cache w) !! k = Some item /\ 0 < Expiration item
              /\ (nowCalls w <= i < size (pool (cache w)) + nowCalls w)%nat
              /\ Expiration item < UnixNano (clock i)) as Hsound.
  { intros k Hin.
    destruct (expired_scan_elem_bound _ _ _ Hin) as (item & i & Hl & Hi & Hpos & Hlt).
    rewrite length_range in Hi. exists item, i.
    split; [by apply elem_of_range|]. repeat split; (done || lia). }
  split; [done|]. split; [done|]. split; [|split].
  - intros k Hin. split; [|by apply Hsound].
    destruct (Hsound k Hin) as (item & _ & Hk & _).
    apply elem_of_GetItems. by exists item.
  - intros k item Hk Hpos Hall.
    apply (expired_scan_window _ _ _ item); [by apply elem_of_range | done |].
    intros i Hi. apply Hall. rewrite length_range in Hi. lia.
  - intros k item Hk Hor Hin.
    destruct (Hsound k Hin) as (item' & i & Hk' & Hpos & Hi & Hlt).
    rewrite Hk in Hk'. injection Hk' as <-.
    destruct Hor as [Hle|Hall]; [lia|]. specialize (Hall i Hi). lia.
Qed.

(** X9.  A tick of the sweeper that nothing interrupts.  An entry
    whose set expiration lies before every later reading of the clock is
    evicted: its key is gone, [Get] reports not found, and its handle was
    closed.  An entry that carries a sentinel, or whose expiration lies
    before no later reading, is left as it is. *)
Theorem GC_tick_evicts_the_expired (w : World) (key : string) (item : PoolItem) :
  pool (cache w) !! key = Some item ->
  let w' := (GC_tick w).2 in
  (0 < Expiration item ->
   (forall i, (nowCalls w <= i)%nat -> Expiration item < UnixNano (clock i)) ->
   pool (cache w') !! key = None
   /\ (key ∉ (GetItems w').1)
   /\ (Get key w').1 = (None, false)
   /\ Db item ∈ closeCalls w')
  /\ (Expiration item <= 0
      \/ (forall i, (nowCalls w <= i)%nat -> UnixNano (clock i) <= Expiration item) ->
      pool (cache w') !! key = Some item).
Proof.
  intros Hk. cbv zeta. rewrite GC_tick_run.
  pose proof (NoDup_ExpiredKeys w) as Hnd.
  assert (pool (cache (ExpiredKeys w).2) = pool (cache w)) as Hsame
    by (by rewrite ExpiredKeys_run).
  rewrite clearItems_run. cbn [snd cache pool closeCalls]. rewrite Hsame.
  split.
  - intros Hpos Hall.
    assert (key ∈ (ExpiredKeys w).1) as Hin.
    { rewrite ExpiredKeys_run. cbn [fst].
      apply (expired_scan_always _ _ _ item); [by apply elem_of_range|done|done]. }
    assert (delete_all (ExpiredKeys w).1 (pool (cache w)) !! key = None) as Hgone
      by (by rewrite lookup_delete_all, decide_True).
    split; [done|]. split; [|split].
    + rewrite elem_of_GetItems. cbn [cache pool]. rewrite Hgone. by intros [? ?].
    + by rewrite Get_absent.
    + apply elem_of_app. right. rewrite closed_by_NoDup by done.
      apply list_elem_of_omap. exists key. split; [done|]. by rewrite Hk.
  - intros Hor. rewrite lookup_delete_all, decide_False; [done|].
    intros Hin. rewrite ExpiredKeys_run in Hin. cbn [fst] in Hin.
    destruct (expired_scan_elem _ _ _ Hin) as (item' & i & Hl & Hi & Hpos & Hlt).
    apply elem_of_range in Hl. rewrite Hk in Hl. injection Hl as <-.
    destruct Hor as [Hle|Hall]; [lia|]. specialize (Hall i Hi). lia.
Qed.

Lemma delete_all_subseteq keys (m : gmap string PoolItem) : delete_all keys m ⊆ m.
Proof.
  unfold delete_all. revert m. induction keys as [|k keys IH]; intros m; cbn; [done|].
  etrans; [apply IH | apply delete_subseteq].
Qed.

Lemma ExpiredKeys_nil w :
  map_Forall (fun _ item => Expiration item <= 0) (pool (cache w)) ->
  (ExpiredKeys w).1 = [].
Proof.
  intros Hall. destruct (ExpiredKeys w).1 as [|k l] eqn:E; [done|].
  assert (k ∈ (ExpiredKeys w).1) as Hin by (rewrite E; left).
  apply elem_of_ExpiredKeys in Hin as (item & Hk & Hpos).
  specialize (Hall k item Hk). cbn in Hall. lia.
Qed.

(** X10.  Any number of ticks of [GC] only removes entries: the map
    afterwards is a part of the map before, and the log of [Close] calls
    is extended.  When no entry has a set expiration, the ticks change
    neither the map nor the logs. *)
Theorem GC_only_removes (n : nat) (w : World) :
  pool (cache (GC n w).2) ⊆ pool (cache w)
  /\ (exists hs, closeCalls (GC n w).2 = closeCalls w ++ hs)
  /\ (map_Forall (fun _ item => Expiration item <= 0) (pool (cache w)) ->
      cache (GC n w).2 = cache w
      /\ closeCalls (GC n w).2 = closeCalls w
      /\ warnings (GC n w).2 = warnings w).
Proof.
  revert w. induction n as [|n IH]; intros w; cbn [GC].
  - split; [done|]. split; [by exists []; rewrite app_nil_r | done].
  - unfold bind. rewrite GC_tick_run.
    destruct (clearItems (ExpiredKeys w).1 (ExpiredKeys w).2) as [[] w1] eqn:E.
    assert (w1 = (clearItems (ExpiredKeys w).1 (ExpiredKeys w).2).2) as Hw1
      by (by rewrite E).
    rewrite clearItems_run, ExpiredKeys_run in Hw1.
    cbn [fst snd cache pool closeCalls warnings defaultExpiration cleanupInterval
         after_reads nowCalls] in Hw1.
    destruct (IH w1) as (Hsub & (hs & Hhs) & Hnone).
    split; [|split].
    + etrans; [exact Hsub|]. rewrite Hw1. cbn. apply delete_all_subseteq.
    + eexists. rewrite Hhs, Hw1. cbn. by rewrite <- app_assoc.
    + intros Hall.
      assert (expired_scan (nowCalls w) (range (pool (cache w))) = []) as Hnil.
      { pose proof (ExpiredKeys_nil w Hall) as H. by rewrite ExpiredKeys_run in H. }
      rewrite Hnil in Hw1. cbn in Hw1. rewrite !app_nil_r in Hw1.
      assert (cache w1 = cache w) as Hc by (rewrite Hw1; by destruct w as [[]]).
      destruct Hnone as (H1 & H2 & H3); [by rewrite Hc|].
      rewrite H1, H2, H3, Hc, Hw1. done.
Qed.

(** ** What [Get] and [GetItems] leave alone *)

(** X11.  [Get] never adds or removes a key and never changes a handle
    or a ttl: whatever it returns, the map has the same keys afterwards,
    every key has the handle and the ttl it had, and the entries of the
    other keys are untouched. *)
Theorem Get_changes_only_timestamps (w : World) (key : string) :
  let w' := (Get key w).2 in
  dom (pool (cache w')) = dom (pool (cache w))
  /\ (forall k, Db <$> pool (cache w') !! k = Db <$> pool (cache w) !! k)
  /\ (forall k, Duration <$> pool (cache w') !! k = Duration <$> pool (cache w) !! k)
  /\ (forall k, k <> key -> pool (cache w') !! k = pool (cache w) !! k)
  /\ ((Get key w).1.2 = true -> (Get key w).1.1 = Db <$> pool (cache w) !! key).
Proof.
  cbv zeta. destruct (pool (cache w) !! key) as [item|] eqn:Hk.
  - destruct (expired_at (clock (nowCalls w)) item) eqn:Hx.
    + by rewrite (Get_expired _ _ _ Hk Hx).
    + rewrite (Get_hit _ _ _ Hk Hx). cbn [fst snd set_pool cache pool].
      split; [apply dom_insert_lookup_L; by exists item|].
      assert (forall k, k <> key ->
                <[key := refreshed item (nowCalls w)]> (pool (cache w)) !! k
                = pool (cache w) !! k) as Hne
        by (intros k Hkk; by rewrite lookup_insert_ne).
      split; [|split; [|split; [done|done]]]; intros k;
        (destruct (decide (k = key)) as [->|Hkk];
         [by rewrite lookup_insert_eq, Hk | by rewrite Hne]).
  - by rewrite (Get_absent _ _ Hk).
Qed.

(** X12.  [GetItems] lists exactly the keys of the map, each once. *)
Theorem GetItems_lists_each_key_once (w : World) :
  NoDup (GetItems w).1
  /\ (forall k, k ∈ (GetItems w).1 <-> is_Some (pool (cache w) !! k))
  /\ length (GetItems w).1 = size (pool (cache w))
  /\ (forall k, k ∈ (ExpiredKeys w).1 -> k ∈ (GetItems w).1).
Proof.
  split; [rewrite GetItems_run; apply NoDup_range_keys|].
  split; [apply elem_of_GetItems|]. split.
  - rewrite GetItems_run. cbn. by rewrite length_fmap, length_range.
  - intros k Hin. apply elem_of_GetItems.
    apply elem_of_ExpiredKeys in Hin as (item & Hk & _). by exists item.
Qed.

(** ** Edges *)

(** X13.  A ttl so long that the clock reading plus the ttl is no
    [int64]: the expiration [Set] stores wraps around to a negative
    number, and the entry never expires: [Get] returns the handle
    whatever the clock shows, and [ExpiredKeys] does not list the key. *)
Theorem Set_with_overflowing_ttl (w : World) (key : string) (value : Handle)
    (ttl : time_Duration) :
  0 < ttl < 2 ^ 63 ->
  0 <= clock (nowCalls w) < 2 ^ 63 ->
  2 ^ 63 <= clock (nowCalls w) + ttl ->
  let w1 := (Set_ key value ttl w).2 in
  Expiration <$> pool (cache w1) !! key = Some (clock (nowCalls w) + ttl - 2 ^ 64)
  /\ (Get key w1).1 = (Some value, true)
  /\ (key ∉ (ExpiredKeys w1).1)
  /\ (forall n, (Get key (GC n w1).2).1 = (Some value, true)).
Proof.
  intros Httl Hnow Hover. cbv zeta. rewrite Set_run. cbv zeta. cbn [snd].
  assert ((ttl =? 0) = false) as -> by (apply Z.eqb_neq; lia).
  assert ((0 <? ttl) = true) as -> by (apply Z.ltb_lt; lia).
  assert (UnixNano (Add (clock (nowCalls w)) ttl) = clock (nowCalls w) + ttl - 2 ^ 64)
    as ->.
  { unfold UnixNano, Add, wrap64.
    replace (clock (nowCalls w) + ttl + 2 ^ 63)
      with (clock (nowCalls w) + ttl - 2 ^ 63 + 1 * 2 ^ 64) by lia.
    rewrite Z.mod_add by lia. rewrite Z.mod_small by lia. lia. }
  set (item := mkPoolItem _ ttl _ value).
  set (w1 := set_pool _ _).
  assert (pool (cache w1) !! key = Some item) as Hk
    by (subst w1; cbn; apply lookup_insert_eq).
  assert (Expiration item < 0) as Hneg by (subst item; cbn; lia).
  assert (forall now, expired_at now item = false) as Hx.
  { intros now. unfold expired_at.
    by assert ((0 <? Expiration item) = false) as -> by (apply Z.ltb_ge; lia). }
  split; [by rewrite Hk|]. split; [|split].
  - by rewrite (Get_hit _ _ _ Hk (Hx _)).
  - apply (not_elem_of_ExpiredKeys _ _ _ Hk). lia.
  - intros n.
    assert (pool (cache (GC n w1).2) !! key = Some item) as Hk'
      by (apply GC_keeps_never_expiring; [done|lia]).
    by rewrite (Get_hit _ _ _ Hk' (Hx _)).
Qed.

(** X14.  On a cache just made by [New] every key is missing: [Get]
    reports not found, [Delete] fails, [GetItems] and [ExpiredKeys]
    return nothing, [ClearAll] and the ticks of [GC] do nothing; none of
    them changes the cache, reads the clock or closes anything.  The
    sweeper is started exactly when the interval is positive. *)
Theorem New_cache_is_empty (defaultTTL interval : time_Duration) (key : string)
    (ticks : nat) :
  let w := mkWorld (New defaultTTL interval) 0 [] [] in
  Get key w = ((None, false), w)
  /\ Delete key w = (Some "key not found"%string, w)
  /\ GetItems w = ([], w)
  /\ ExpiredKeys w = ([], w)
  /\ ClearAll w = (tt, w)
  /\ GC ticks w = (tt, w)
  /\ (sweeper_started (New defaultTTL interval) = true <-> 0 < interval).
Proof.
  cbv zeta. set (w := mkWorld (New defaultTTL interval) 0 [] []).
  assert (pool (cache w) = ∅) as Hp by done.
  assert (ExpiredKeys w = ([], w)) as He
    by (rewrite ExpiredKeys_run, Hp, range_empty; done).
  assert (GC_tick w = (tt, w)) as Ht by (rewrite GC_tick_run, He; done).
  split; [apply Get_absent; by rewrite Hp|].
  split; [apply Delete_absent; by rewrite Hp|].
  split; [rewrite GetItems_run, Hp, range_empty; done|].
  split; [done|].
  split; [rewrite ClearAll_clearItems, Hp, range_empty; done|].
  split; [|unfold sweeper_started; cbn; apply Z.ltb_lt].
  induction ticks as [|n IH]; [done|]. cbn [GC]. unfold bind. by rewrite Ht.
Qed.

(** ** Evictions compose *)

Lemma closed_by_app keys1 keys2 (m : gmap string PoolItem) :
  closed_by (keys1 ++ keys2) m
  = closed_by keys1 m ++ closed_by keys2 (delete_all keys1 m).
Proof.
  revert m. induction keys1 as [|k keys1 IH]; intros m; cbn [app closed_by]; [done|].
  change (delete_all (k :: keys1) m) with (delete_all keys1 (delete k m)).
  by rewrite IH, app_assoc.
Qed.

(** X15.  Evicting two lists of keys in one call of [clearItems] is
    evicting the first and then the second; evicting the same keys again
    changes nothing and closes nothing, and so does a second
    [ClearAll]. *)
Theorem evictions_compose (keys1 keys2 : list string) (w : World) :
  clearItems (keys1 ++ keys2) w = clearItems keys2 (clearItems keys1 w).2
  /\ clearItems keys1 (clearItems keys1 w).2 = (tt, (clearItems keys1 w).2)
  /\ ClearAll (ClearAll w).2 = (tt, (ClearAll w).2).
Proof.
  assert (forall keys w', (forall k, k ∈ keys -> pool (cache w') !! k = None) ->
            clearItems keys w' = (tt, w')) as Hnoop.
  { intros keys w' Habs. rewrite clearItems_run.
    rewrite (closed_by_absent _ _ Habs), (delete_all_absent _ _ Habs).
    cbn. rewrite !app_nil_r. by destruct w' as [[]]. }
  split; [|split].
  - rewrite !clearItems_run. cbn [snd cache pool closeCalls warnings nowCalls
                                   defaultExpiration cleanupInterval].
    rewrite closed_by_app, close_warnings_app, length_app, <- !app_assoc.
    unfold delete_all at 1. rewrite foldl_app. fold (delete_all keys1 (pool (cache w))).
    do 4 f_equal. f_equal. lia.
  - apply Hnoop. intros k Hk. rewrite clearItems_run. cbn.
    by rewrite lookup_delete_all, decide_True.
  - rewrite (ClearAll_clearItems (ClearAll w).2). apply Hnoop. intros k Hk.
    rewrite ClearAll_clearItems, clearItems_run in *. cbn in *.
    rewrite delete_all_range in *. rewrite range_empty in Hk.
    by apply elem_of_nil in Hk.
Qed.

(** X16.  The two steps of the sweeper, taken one after the other with
    no call in between, are the body of the loop of [GC]; [n] such pairs
    of steps are [n] iterations of the loop. *)
Theorem sweeper_steps_are_GC (n : nat) (s : System) :
  snapshot s = None ->
  world (run [SweepScan; SweepEvict] s) = (GC_tick (world s)).2
  /\ world (run (mjoin (replicate n [SweepScan; SweepEvict])) s) = (GC n (world s)).2
  /\ snapshot (run (mjoin (replicate n [SweepScan; SweepEvict])) s) = None.
Proof.
  assert (forall s, snapshot s = None ->
            world (run [SweepScan; SweepEvict] s) = (GC_tick (world s)).2
            /\ snapshot (run [SweepScan; SweepEvict] s) = None) as Htick.
  { clear. intros s Hs. unfold run. cbn [foldl step]. rewrite Hs. cbn [snapshot world].
    unfold GC_tick, bind. destruct (ExpiredKeys (world s)) as [keys w1]. cbn [fst snd].
    destruct keys as [|k keys]; cbn; done. }
  intros Hs. split; [by apply Htick|].
  revert s Hs. induction n as [|n IH]; intros s Hs; [done|].
  change (mjoin (replicate (S n) [SweepScan; SweepEvict]))
    with ([SweepScan; SweepEvict] ++ mjoin (replicate n [SweepScan; SweepEvict])).
  cbn [GC]. unfold run in *. rewrite foldl_app.
  destruct (Htick s Hs) as [Hw Hn]. unfold run in Hw, Hn.
  destruct (IH _ Hn) as [IH1 IH2]. rewrite IH1, IH2, Hw. split; [|done].
  unfold bind. by destruct (GC_tick (world s)).
Qed.

(** ** Every call gets the lock and returns *)

Lemma work_left_insert ts i x y :
  ts !! i = Some x ->
  (work_left (<[i := y]> ts) + steps_left x = work_left ts + steps_left y)%nat.
Proof.
  revert i. induction ts as [|t ts IH]; intros i Hi; [done|].
  destruct i as [|i]; simpl in *.
  - injection Hi as ->. lia.
  - specialize (IH i Hi). lia.
Qed.

Lemma work_left_step st st' :
  sched_step st st' -> work_left st.2 = S (work_left st'.2).
Proof.
  intros [l ts i e Hi _ | l ts i e Hi]; cbn [snd].
  - pose proof (work_left_insert ts i _ (Inside e) Hi) as H. cbn in H. lia.
  - pose proof (work_left_insert ts i _ Finished Hi) as H. cbn in H. lia.
Qed.

Lemma length_step st st' :
  sched_step st st' -> length st'.2 = length st.2.
Proof. intros [l ts i e _ _ | l ts i e _]; cbn; apply length_insert. Qed.

Lemma work_left_0 ts : work_left ts = 0%nat -> ts = replicate (length ts) Finished.
Proof.
  induction ts as [|t ts IH]; cbn; [done|]. intros H.
  destruct t; cbn in H; try lia. by rewrite <- IH by lia.
Qed.

Lemma someone_inside_or_free ts :
  (exists i e, ts !! i = Some (Inside e))
  \/ (holders RLock ts = 0%nat /\ holders Lock ts = 0%nat).
Proof.
  induction ts as [|t ts [(i & e & Hi)|[H1 H2]]].
  - by right.
  - left. by exists (S i), e.
  - destruct t as [e|e|].
    + right. by cbn.
    + left. by exists 0%nat, e.
    + right. by cbn.
Qed.

Lemma someone_waiting ts :
  work_left ts <> 0%nat ->
  (exists i e, ts !! i = Some (Inside e)) \/ (exists i e, ts !! i = Some (Waiting e)).
Proof.
  induction ts as [|t ts IH]; cbn; [done|]. intros H.
  destruct t as [e|e|].
  - right. by exists 0%nat, e.
  - left. by exists 0%nat, e.
  - cbn in H. destruct (IH H) as [(i & e & Hi)|(i & e & Hi)].
    + left. by exists (S i), e.
    + right. by exists (S i), e.
Qed.

Lemma lock_progress l ts :
  lock_consistent (l, ts) -> work_left ts <> 0%nat ->
  exists st', sched_step (l, ts) st'.
Proof.
  intros (Hr & Hw0 & Hw1) Hwork. cbn in *.
  destruct (someone_inside_or_free ts) as [(i & e & Hi)|[HR HL]].
  - eexists. by apply (sched_release l ts i e).
  - destruct (someone_waiting ts Hwork) as [(i & e & Hi)|(i & e & Hi)].
    + eexists. by apply (sched_release l ts i e).
    + eexists. apply (sched_acquire l ts i e Hi).
      destruct (writer l) eqn:Hwr; [destruct (Hw1 eq_refl); lia|].
      destruct (lock_mode e); cbn; rewrite Hwr; [done|].
      cbn. apply Nat.eqb_eq. lia.
Qed.

(** X17.  Goroutines that each make one call, under the lock modes the
    operations take.  In every state they reach, a goroutine that has
    not returned never waits in vain: some step is possible, the
    goroutines can all run to their return from there, and no schedule
    takes more than two steps per goroutine. *)
Theorem every_call_returns (ts0 : list Thread) (l : RWMutex) (ts : list Thread) :
  lock_consistent (mkRWMutex 0 false, ts0) ->
  rtc sched_step (mkRWMutex 0 false, ts0) (l, ts) ->
  (work_left ts <> 0%nat -> exists st', sched_step (l, ts) st')
  /\ (exists l', rtc sched_step (l, ts) (l', replicate (length ts) Finished))
  /\ (forall n st', nsteps sched_step n (l, ts) st' -> (n <= 2 * length ts)%nat).
Proof.
  intros H0 Hreach. pose proof (lock_consistent_rtc _ _ H0 Hreach) as Hc.
  clear H0 Hreach ts0. split; [by apply lock_progress|]. split.
  - remember (work_left ts) as k eqn:Hk. revert l ts Hc Hk.
    induction k as [|k IH]; intros l ts Hc Hk.
    + exists l. rewrite <- work_left_0 by done. apply rtc_refl.
    + destruct (lock_progress l ts Hc) as [[l1 ts1] Hstep]; [lia|].
      pose proof (work_left_step _ _ Hstep) as Hw. cbn in Hw.
      pose proof (length_step _ _ Hstep) as Hlen. cbn in Hlen.
      destruct (IH l1 ts1) as [l' Hrest].
      * by apply (lock_consistent_step (l, ts)).
      * lia.
      * exists l'. rewrite <- Hlen. by eapply rtc_l.
  - assert (forall n st st', nsteps sched_step n st st' ->
              (n + work_left st'.2 = work_left st.2)%nat) as Hcount.
    { intros n st st' Hn. induction Hn as [|n st1 st2 st3 Hstep _ IH]; [done|].
      pose proof (work_left_step _ _ Hstep). lia. }
    assert (forall ts', (work_left ts' <= 2 * length ts')%nat) as Hbound.
    { induction ts' as [|t ts' IH]; cbn; [lia|]. destruct t; cbn; lia. }
    intros n st' Hn. specialize (Hcount _ _ _ Hn). cbn in Hcount.
    specialize (Hbound ts). lia.
Qed.

End Cache.

(** ** Concrete runs *)

(** A clock that advances by one microsecond per reading. *)
Definition sample_clock (n : nat) : time_Time := 1000 * Z.of_nat n + 5.

(** A clock that advances by 40 per reading and stops at 40000. *)
Definition slow_clock (n : nat) : time_Time := Z.min (40 * Z.of_nat n) 40000.

Definition close_ok (n : nat) (h : Handle) : option string := None.

Definition close_fails (n : nat) (h : Handle) : option string :=
  Some "connection reset"%string.

Definition sample_range (m : gmap string PoolItem) : list (string * PoolItem) :=
  map_to_list m.

(** A cache made by [New 0 10], before any call. *)
Definition fresh : World := mkWorld (New 0 10) 0 [] [].

(** One entry ["a"] with ttl 50 and one entry ["b"] that never expires. *)
Definition two_entries : World :=
  (Set_ sample_clock "b" 8%nat 0 (Set_ sample_clock "a" 7%nat 50 fresh).2).2.

Lemma sample_range_perm : forall m, sample_range m ≡ₚ map_to_list m.
Proof. intros m. reflexivity. Defined.

Lemma Get_expired_is_lazy_witness :
  pool (cache two_entries) !! "a" = Some (mkPoolItem 55 50 1005 7%nat)
  /\ (Get sample_clock "a" two_entries).1 = (None, false)
  /\ "a" ∈ (GetItems sample_range (Get sample_clock "a" two_entries).2).1.
Proof.
  split; [vm_compute; reflexivity|].
  pose proof (Get_expired_is_lazy sample_clock close_ok sample_range sample_range_perm
                two_entries "a" (mkPoolItem 55 50 1005 7%nat)) as H.
  destruct H as (H1 & _ & H3 & _).
  - vm_compute; reflexivity.
  - vm_compute; reflexivity.
  - vm_compute; reflexivity.
  - split; [exact H1 | exact H3].
Defined.

Lemma Set_stores_entry_witness :
  pool (cache (Set_ sample_clock "a" 7%nat 50 fresh).2) !! "a"
    = Some (mkPoolItem 55 50 1005 7%nat)
  /\ Expiration <$> pool (cache (Set_ sample_clock "a" 7%nat 50 fresh).2) !! "a"
     = Some (sample_clock 0 + 50)
  /\ Expiration <$> pool (cache (Set_ sample_clock "c" 9%nat (2 ^ 63 - 1) fresh).2) !! "c"
     = Some (sample_clock 0 + (2 ^ 63 - 1) - 2 ^ 64)
  /\ Expiration <$> pool (cache (Set_ sample_clock "b" 8%nat 0 fresh).2) !! "b"
     = Some 0
  /\ closeCalls (Set_ sample_clock "a" 7%nat 50 fresh).2 = [].
Proof.
  destruct (Set_stores_entry sample_clock fresh "a" 7%nat 50)
    as (_ & Hp & Hsum & _ & _ & _ & _ & Hc & _).
  destruct (Set_stores_entry sample_clock fresh "c" 9%nat (2 ^ 63 - 1))
    as (_ & _ & _ & Hwrap & _).
  destruct (Set_stores_entry sample_clock fresh "b" 8%nat 0)
    as (_ & _ & _ & _ & Hzero & _).
  split; [rewrite Hp; vm_compute; reflexivity|].
  split; [|split; [|split; [|exact Hc]]].
  - apply Hsum; [cbn; lia | vm_compute; split; [discriminate | reflexivity]].
  - apply Hwrap; [vm_compute; reflexivity | vm_compute; split; [discriminate | reflexivity]].
  - apply Hzero. cbn. lia.
Defined.

Lemma queries_leave_cache_unchanged_witness :
  (Get sample_clock "a" two_entries).1 = (None, false)
  /\ cache (Get sample_clock "a" two_entries).2 = cache two_entries
  /\ closeCalls (Get sample_clock "a" two_entries).2 = closeCalls two_entries
  /\ (GetItems sample_range two_entries).2 = two_entries
  /\ cache (ExpiredKeys sample_clock sample_range two_entries).2 = cache two_entries.
Proof.
  destruct (queries_leave_cache_unchanged sample_clock sample_range two_entries "a")
    as (Hitems & (Hexp & _) & Hget).
  destruct Hget as (_ & Hcache & Hclose & _); [vm_compute; reflexivity|].
  split; [vm_compute; reflexivity|].
  split; [exact Hcache|]. split; [exact Hclose|]. split; [exact Hitems | exact Hexp].
Defined.

Lemma Get_hit_refreshes_witness :
  let w := (Set_ slow_clock "a" 7%nat 100 fresh).2 in
  pool (cache w) !! "a" = Some (mkPoolItem 100 100 40 7%nat)
  /\ expired_at (slow_clock (nowCalls w)) (mkPoolItem 100 100 40 7%nat) = false
  /\ (Get slow_clock "a" w).1 = (Some 7%nat, true)
  /\ Expiration <$> pool (cache (Get slow_clock "a" w).2) !! "a" = Some 220
  /\ (Get slow_clock "a" (Get slow_clock "a" w).2).1 = (Some 7%nat, true)
  /\ Forall (fun r => r = (Some 7%nat, true))
            (Get_times slow_clock 5 "a" (Get slow_clock "a" w).2).1.
Proof.
  cbv zeta.
  assert (pool (cache (Set_ slow_clock "a" 7%nat 100 fresh).2) !! "a"
          = Some (mkPoolItem 100 100 40 7%nat)) as Hk by (vm_compute; reflexivity).
  assert (expired_at (slow_clock (nowCalls (Set_ slow_clock "a" 7%nat 100 fresh).2))
                     (mkPoolItem 100 100 40 7%nat) = false) as He
    by (vm_compute; reflexivity).
  destruct (Get_hit_refreshes slow_clock _ "a" _ Hk He)
    as (H1 & _ & H3 & _ & _ & _ & H7 & H8).
  split; [exact Hk|]. split; [exact He|]. split; [exact H1|]. split; [|split].
  - apply H3; [cbn; lia | vm_compute; split; [discriminate | reflexivity]].
  - apply H7; [reflexivity|]. right.
    split; [cbn; lia|].
    split; [vm_compute; split; [discriminate | reflexivity]|].
    split; [vm_compute; split; [discriminate | reflexivity]|].
    vm_compute. discriminate.
  - apply H8. right. split; [cbn; lia|]. split.
    + intros i. unfold slow_clock, int64_range. lia.
    + intros i. unfold slow_clock. cbn. lia.
Defined.

Lemma Delete_closes_and_removes_witness :
  (Delete close_fails "a" two_entries).1 = None
  /\ closeCalls (Delete close_fails "a" two_entries).2 = [7%nat]
  /\ pool (cache (Delete close_fails "a" two_entries).2) !! "a" = None
  /\ warnings (Delete close_fails "a" two_entries).2
     = ["db connection close error: connection reset"%string]
  /\ Delete close_fails "c" two_entries = (Some "key not found"%string, two_entries).
Proof.
  destruct (Delete_closes_and_removes close_fails two_entries "a") as (_ & _ & Hp).
  destruct (Hp (mkPoolItem 55 50 1005 7%nat)) as (H1 & H2 & _ & H4 & H5);
    [vm_compute; reflexivity|].
  destruct (Delete_closes_and_removes close_fails two_entries "c") as (_ & Ha & _).
  split; [exact H1|]. split; [exact H2|]. split; [exact H4|]. split; [exact H5|].
  apply Ha. vm_compute; reflexivity.
Defined.

Lemma sweep_evicts_snapshot_witness :
  let keys := (ExpiredKeys sample_clock sample_range two_entries).1 in
  keys = ["a"%string]
  /\ pool (cache (clearItems close_ok keys two_entries).2) !! "a" = None
  /\ closeCalls (clearItems close_ok keys two_entries).2 = [7%nat]
  /\ (clearItems close_ok keys (Delete close_ok "a" two_entries).2).2
     = (Delete close_ok "a" two_entries).2.
Proof.
  cbv zeta.
  assert ((ExpiredKeys sample_clock sample_range two_entries).1 = ["a"%string]) as Hkeys
    by (vm_compute; reflexivity).
  destruct (sweep_evicts_snapshot sample_clock close_ok sample_range sample_range_perm
              two_entries two_entries) as (_ & _ & Hgone & _ & Hclosed & _).
  destruct (sweep_evicts_snapshot sample_clock close_ok sample_range sample_range_perm
              two_entries (Delete close_ok "a" two_entries).2) as (_ & _ & _ & _ & _ & Hnoop & _).
  split; [exact Hkeys|]. split; [|split].
  - apply Hgone. rewrite Hkeys. left.
  - rewrite Hclosed, Hkeys. vm_compute. reflexivity.
  - apply Hnoop. intros k. rewrite Hkeys. intros Hk.
    apply list_elem_of_singleton in Hk as ->. vm_compute. reflexivity.
Defined.

Lemma ClearAll_closes_everything_witness :
  length (closeCalls (ClearAll close_fails sample_range two_entries).2) = 2%nat
  /\ length (warnings (ClearAll close_fails sample_range two_entries).2) = 2%nat
  /\ pool (cache (ClearAll close_fails sample_range two_entries).2) = ∅
  /\ (GetItems sample_range (ClearAll close_fails sample_range two_entries).2).1 = [].
Proof.
  destruct (ClearAll_closes_everything sample_clock close_fails sample_range
              sample_range_perm two_entries) as (_ & _ & _ & Hlen & _ & Hempty & Hitems & _).
  split; [rewrite Hlen; vm_compute; reflexivity|].
  split; [vm_compute; reflexivity|].
  split; [exact Hempty | exact Hitems].
Defined.

Lemma never_expire_entry_stays_witness :
  let tr := [CallSet "a" 7%nat 1; SweepScan; CallGet "b"; SweepEvict; CallGetItems] in
  let s := run sample_clock close_ok sample_range tr
               (step sample_clock close_ok sample_range (CallSet "b" 8%nat 0)
                     (mkSystem fresh None)) in
  defaultExpiration (cache fresh) = 0
  /\ (Get sample_clock "b" (world s)).1 = (Some 8%nat, true)
  /\ closeCalls (world s) = [7%nat].
Proof.
  cbv zeta. split; [reflexivity|].
  destruct (never_expire_entry_stays sample_clock close_ok sample_range sample_range_perm
              "b" 8%nat (mkSystem fresh None)
              [CallSet "a" 7%nat 1; SweepScan; CallGet "b"; SweepEvict; CallGetItems])
    as (H1 & _).
  - reflexivity.
  - intros keys Hs. discriminate Hs.
  - repeat constructor.
  - split; [exact H1 | vm_compute; reflexivity].
Defined.

Lemma no_race_without_Get_witness :
  rtc sched_step
      (mkRWMutex 0 false, [Waiting (CallSet "a" 7%nat 0); Waiting CallGetItems])
      (mkRWMutex 0 true, [Inside (CallSet "a" 7%nat 0); Waiting CallGetItems])
  /\ ~ data_race [Inside (CallSet "a" 7%nat 0); Waiting CallGetItems].
Proof.
  assert (rtc sched_step
            (mkRWMutex 0 false, [Waiting (CallSet "a" 7%nat 0); Waiting CallGetItems])
            (mkRWMutex 0 true, [Inside (CallSet "a" 7%nat 0); Waiting CallGetItems])) as Hr.
  { eapply rtc_l; [|apply rtc_refl].
    exact (sched_acquire (mkRWMutex 0 false)
             [Waiting (CallSet "a" 7%nat 0); Waiting CallGetItems]
             0%nat (CallSet "a" 7%nat 0) eq_refl eq_refl). }
  split; [exact Hr|].
  assert (lock_consistent
            (mkRWMutex 0 false, [Waiting (CallSet "a" 7%nat 0); Waiting CallGetItems])) as Hc.
  { split; [reflexivity|]. split; [reflexivity|]. intros H. discriminate H. }
  apply (no_race_without_Get _ _ _ Hc Hr).
  intros [|[|i]] key H; discriminate H.
Defined.

(** C7, a positive ttl for which the expiration [Set] stores is not
    the clock reading plus the ttl: the ttl is the largest [int64], the
    clock reads [5]; the sum is no [int64], and the stored expiration is
    the sum minus [2^64]. *)
Lemma Set_expiration_wraps_around :
  let ttl := 2 ^ 63 - 1 in
  let now := sample_clock (nowCalls fresh) in
  0 < ttl
  /\ int64_range ttl
  /\ int64_range now
  /\ pool (cache (Set_ sample_clock "a" 7%nat ttl fresh).2) !! "a"
     = Some (mkPoolItem (-9223372036854775804) ttl 1005 7%nat)
  /\ now + ttl = 9223372036854775812
  /\ Expiration (mkPoolItem (-9223372036854775804) ttl 1005 7%nat) <> now + ttl.
Proof. vm_compute. repeat split; try discriminate. Qed.

(** C3, a present and unexpired entry whose refreshed expiration is not
    the clock reading plus the stored ttl: the entry was stored with ttl
    [0] on a cache whose [defaultExpiration] is [0]; [Get] finds it, and
    the entry it writes back carries the sentinel [0], while the reading
    of the clock plus the stored ttl is [1005]. *)
Lemma Get_refresh_keeps_sentinel :
  let w := (Set_ sample_clock "a" 7%nat 0 (mkWorld (New 0 0) 0 [] [])).2 in
  let now := sample_clock (nowCalls w) in
  pool (cache w) !! "a" = Some (mkPoolItem 0 0 5 7%nat)
  /\ expired_at now (mkPoolItem 0 0 5 7%nat) = false
  /\ (Get sample_clock "a" w).1 = (Some 7%nat, true)
  /\ pool (cache (Get sample_clock "a" w).2) !! "a" = Some (mkPoolItem 0 0 1005 7%nat)
  /\ UnixNano (Add now 0) = 1005
  /\ Expiration (mkPoolItem 0 0 1005 7%nat) <> UnixNano (Add now 0).
Proof. vm_compute. repeat split; discriminate. Qed.

(** C8 (the code at the claim).  On a cache made by [New 0 10], the key
    ["a"] first holds an entry with ttl [1] that expires; the sweeper
    scans and takes ["a"] into its snapshot; before the sweeper evicts, a
    caller stores a new entry under ["a"] with ttl [0], which carries the
    sentinel; the sweeper then evicts the keys of its snapshot: it closes
    the handle of the new entry and deletes it, and [Get] reports not
    found. *)
Theorem stale_snapshot_evicts_never_expiring_entry :
  let sys tr := run sample_clock close_ok sample_range tr (mkSystem fresh None) in
  let stored := sys [CallSet "a" 1%nat 1; SweepScan; CallSet "a" 2%nat 0] in
  let swept := sys [CallSet "a" 1%nat 1; SweepScan; CallSet "a" 2%nat 0; SweepEvict] in
  snapshot (sys [CallSet "a" 1%nat 1; SweepScan]) = Some ["a"%string]
  /\ pool (cache (world stored)) !! "a" = Some (mkPoolItem 0 0 3005 2%nat)
  /\ (Get sample_clock "a" (world stored)).1 = (Some 2%nat, true)
  /\ closeCalls (world swept) = [2%nat]
  /\ pool (cache (world swept)) !! "a" = None
  /\ (Get sample_clock "a" (world swept)).1 = (None, false).
Proof. vm_compute. repeat split. Qed.

(** C1 at a concrete run: after two [Set]s on ["a"] no handle has been
    closed, and the first handle is no longer in the map. *)
Example Set_overwrite_run :
  let w := (Set_ sample_clock "a" 2%nat 0 (Set_ sample_clock "a" 1%nat 0 fresh).2).2 in
  closeCalls w = []
  /\ (Get sample_clock "a" w).1 = (Some 2%nat, true)
  /\ (fun kv => Db kv.2) <$> map_to_list (pool (cache w)) = [2%nat].
Proof. vm_compute. repeat split. Qed.

(** ** Concrete runs of the further properties *)

(** A clock that advances by one microsecond per reading up to one
    millisecond and then stands still. *)
Definition late_clock (n : nat) : time_Time := Z.min (1000 * Z.of_nat n + 5) 1000000.

(** Only the entry ["b"], which never expires. *)
Definition only_sentinel : World := (Set_ sample_clock "b" 8%nat 0 fresh).2.

Lemma Set_then_Get_witness :
  (Get slow_clock "a" (Set_ slow_clock "a" 7%nat 100 fresh).2).1 = (Some 7%nat, true).
Proof.
  destruct (Set_then_Get slow_clock fresh "a" 7%nat 100) as [[_ Hhit] _].
  - reflexivity.
  - reflexivity.
  - vm_compute; split; [discriminate | reflexivity].
  - vm_compute; split; [discriminate | reflexivity].
  - apply Hhit. vm_compute. discriminate.
Defined.

Lemma handles_are_kept_witness :
  let tr := [CallGet "a"; CallDelete "b"; SweepScan; SweepEvict; CallClearAll] in
  let w := world (run sample_clock close_ok sample_range tr (mkSystem two_entries None)) in
  handles w ≡ₚ handles two_entries /\ NoDup (closeCalls w).
Proof.
  cbv zeta.
  destruct (handles_are_kept sample_clock close_ok sample_range
              [CallGet "a"; CallDelete "b"; SweepScan; SweepEvict; CallClearAll]
              (mkSystem two_entries None)) as (Hsame & _ & Hnd).
  - repeat constructor.
  - split; [exact Hsame|]. apply Hnd.
    apply (bool_decide_unpack _). vm_compute. exact I.
Defined.

Lemma ExpiredKeys_lists_the_expired_witness :
  NoDup (ExpiredKeys sample_clock sample_range two_entries).1
  /\ "a" ∈ (ExpiredKeys sample_clock sample_range two_entries).1
  /\ "b" ∉ (ExpiredKeys sample_clock sample_range two_entries).1.
Proof.
  destruct (ExpiredKeys_lists_the_expired sample_clock sample_range sample_range_perm
              two_entries) as (Hnd & _ & _ & Hin & Hout).
  split; [exact Hnd|]. split.
  - apply (Hin "a" (mkPoolItem 55 50 1005 7%nat)).
    + vm_compute; reflexivity.
    + reflexivity.
    + intros i Hi. change (3 <= i < 5)%nat in Hi.
      assert (i = 3 \/ i = 4)%nat as [-> | ->] by lia; vm_compute; reflexivity.
  - apply (Hout "b" (mkPoolItem 0 0 2005 8%nat)).
    + vm_compute; reflexivity.
    + left. cbn. lia.
Defined.

Lemma GC_tick_evicts_the_expired_witness :
  pool (cache (GC_tick late_clock close_ok sample_range two_entries).2) !! "a" = None
  /\ 7%nat ∈ closeCalls (GC_tick late_clock close_ok sample_range two_entries).2
  /\ pool (cache (GC_tick late_clock close_ok sample_range two_entries).2) !! "b"
     = Some (mkPoolItem 0 0 2005 8%nat).
Proof.
  destruct (GC_tick_evicts_the_expired late_clock close_ok sample_range sample_range_perm
              two_entries "a" (mkPoolItem 55 50 1005 7%nat)) as [Hgone _];
    [vm_compute; reflexivity|].
  destruct (GC_tick_evicts_the_expired late_clock close_ok sample_range sample_range_perm
              two_entries "b" (mkPoolItem 0 0 2005 8%nat)) as [_ Hkept];
    [vm_compute; reflexivity|].
  destruct Hgone as (H1 & _ & _ & H4).
  - reflexivity.
  - intros i Hi. change (3 <= i)%nat in Hi. cbn [Expiration].
    unfold UnixNano. rewrite wrap64_id; unfold late_clock, int64_range; lia.
  - split; [exact H1|]. split; [exact H4|]. apply Hkept. left. cbn. lia.
Defined.

Lemma GC_only_removes_witness :
  pool (cache (GC sample_clock close_ok sample_range 3 two_entries).2)
    ⊆ pool (cache two_entries)
  /\ cache (GC sample_clock close_ok sample_range 3 only_sentinel).2 = cache only_sentinel
  /\ closeCalls (GC sample_clock close_ok sample_range 3 only_sentinel).2 = [].
Proof.
  destruct (GC_only_removes sample_clock close_ok sample_range sample_range_perm
              3 two_entries) as (Hsub & _).
  destruct (GC_only_removes sample_clock close_ok sample_range sample_range_perm
              3 only_sentinel) as (_ & _ & Hnone).
  destruct Hnone as (Hc & Hcl & _).
  - apply (bool_decide_unpack _). vm_compute. exact I.
  - split; [exact Hsub|]. split; [exact Hc | exact Hcl].
Defined.

Lemma GetItems_lists_each_key_once_witness :
  NoDup (GetItems sample_range two_entries).1
  /\ length (GetItems sample_range two_entries).1 = 2%nat.
Proof.
  destruct (GetItems_lists_each_key_once sample_clock sample_range sample_range_perm
              two_entries) as (Hnd & _ & Hlen & _).
  split; [exact Hnd|]. rewrite Hlen. vm_compute. reflexivity.
Defined.

Lemma Set_with_overflowing_ttl_witness :
  let w1 := (Set_ sample_clock "a" 7%nat (2 ^ 63 - 1) fresh).2 in
  Expiration <$> pool (cache w1) !! "a" = Some (5 + (2 ^ 63 - 1) - 2 ^ 64)
  /\ (Get sample_clock "a" w1).1 = (Some 7%nat, true).
Proof.
  cbv zeta.
  destruct (Set_with_overflowing_ttl sample_clock close_ok sample_range sample_range_perm
              fresh "a" 7%nat (2 ^ 63 - 1)) as (Hexp & Hget & _).
  - lia.
  - vm_compute. split; [discriminate | reflexivity].
  - vm_compute. discriminate.
  - split; [exact Hexp | exact Hget].
Defined.

Lemma New_cache_is_empty_witness :
  Get sample_clock "a" fresh = ((None, false), fresh)
  /\ GC sample_clock close_ok sample_range 5 fresh = (tt, fresh)
  /\ sweeper_started (New 0 10) = true.
Proof.
  destruct (New_cache_is_empty sample_clock close_ok sample_range sample_range_perm
              0 10 "a" 5) as (Hget & _ & _ & _ & _ & Hgc & Hsw).
  split; [exact Hget|]. split; [exact Hgc|]. apply Hsw. reflexivity.
Defined.

Lemma evictions_compose_witness :
  clearItems close_fails ["a"; "b"]%string two_entries
  = clearItems close_fails ["b"%string] (clearItems close_fails ["a"%string] two_entries).2
  /\ ClearAll close_fails sample_range (ClearAll close_fails sample_range two_entries).2
     = (tt, (ClearAll close_fails sample_range two_entries).2).
Proof.
  destruct (evictions_compose close_fails sample_range sample_range_perm
              ["a"%string] ["b"%string] two_entries) as (Happ & _ & Hall).
  split; [exact Happ | exact Hall].
Defined.

Lemma sweeper_steps_are_GC_witness :
  world (run sample_clock close_ok sample_range
             (mjoin (replicate 2 [SweepScan; SweepEvict])) (mkSystem two_entries None))
  = (GC sample_clock close_ok sample_range 2 two_entries).2.
Proof.
  destruct (sweeper_steps_are_GC sample_clock close_ok sample_range 2
              (mkSystem two_entries None) eq_refl) as (_ & Hn & _).
  exact Hn.
Defined.

Lemma every_call_returns_witness :
  exists l',
    rtc sched_step
        (mkRWMutex 1 false, [Inside (CallGet "a"); Waiting (CallSet "a" 7%nat 0)])
        (l', [Finished; Finished]).
Proof.
  assert (lock_consistent
            (mkRWMutex 0 false, [Waiting (CallGet "a"); Waiting (CallSet "a" 7%nat 0)]))
    as Hc.
  { split; [reflexivity|]. split; [reflexivity|]. intros H. discriminate H. }
  assert (rtc sched_step
            (mkRWMutex 0 false, [Waiting (CallGet "a"); Waiting (CallSet "a" 7%nat 0)])
            (mkRWMutex 1 false, [Inside (CallGet "a"); Waiting (CallSet "a" 7%nat 0)]))
    as Hr.
  { eapply rtc_l; [|apply rtc_refl].
    exact (sched_acquire (mkRWMutex 0 false)
             [Waiting (CallGet "a"); Waiting (CallSet "a" 7%nat 0)]
             0%nat (CallGet "a") eq_refl eq_refl). }
  destruct (every_call_returns _ _ _ Hc Hr) as (_ & Hdone & _).
  exact Hdone.
Defined.
